(** * DiffConfig: the indentation parser and the tree differ of DiffCli.py

    A shallow embedding of [build_tree] and [diff_trees] together with the
    properties the specification states about them.

    - Python [str] values are [string]s; the whitespace class is the one of
      [str.isspace] restricted to code points below 256.
    - The nested [defaultdict] that [build_tree] grows in place is a store of
      dictionaries addressed by allocation index; the indentation stack holds
      addresses, so the aliasing between the stack and the tree is explicit.
    - A finished tree is a finite map from command text to subtree.
    - [diff_trees] walks [set(old_tree) | set(new_tree)].  Python leaves the
      iteration order of a set unspecified, so the order is a parameter
      ([SetOrder]) of the embedding.
    - Every call of [diff_trees] takes a frame of the interpreter's call
      stack.  [diff_trees_call] is the call under a budget of frames, with
      [RecursionError] as its failure; [diff_trees] is the report it returns
      whenever it returns. *)

From Stdlib Require Import ZArith String Ascii List Lia Permutation.
From stdpp Require Import gmap strings list fin_maps.

Local Open Scope string_scope.
Local Open Scope list_scope.

(** ** Python string primitives *)

Module PyStr.

(** [str.isspace] on one character (code points 9-13, 28-32, 0x85, 0xA0). *)
Definition isspace (c : ascii) : bool :=
  let n := nat_of_ascii c in
  ((9 <=? n)%nat && (n <=? 13)%nat) || ((28 <=? n)%nat && (n <=? 32)%nat)
  || (n =? 133)%nat || (n =? 160)%nat.

(** [s.lstrip()] *)
Fixpoint lstrip (s : string) : string :=
  match s with
  | EmptyString => EmptyString
  | String c s' => if isspace c then lstrip s' else s
  end.

(** [s.rstrip()] *)
Fixpoint rstrip (s : string) : string :=
  match s with
  | EmptyString => EmptyString
  | String c s' =>
      match rstrip s' with
      | EmptyString => if isspace c then EmptyString else String c EmptyString
      | r => String c r
      end
  end.

(** [s.strip()]: the leading run is dropped first, then the trailing one. *)
Definition strip (s : string) : string := rstrip (lstrip s).

(** [len(s)] *)
Definition len (s : string) : Z := Z.of_nat (String.length s).

(** [s * n]; a non-positive count gives the empty string. *)
Definition mul (s : string) (n : Z) : string :=
  Nat.iter (Z.to_nat n) (String.append s) EmptyString.

(** Truth value of a string: [not s] holds for the empty string only. *)
Definition is_empty (s : string) : bool :=
  match s with EmptyString => true | _ => false end.

(** Number of leading whitespace characters. *)
Fixpoint leading_spaces (s : string) : nat :=
  match s with
  | EmptyString => O
  | String c s' => if isspace c then S (leading_spaces s') else O
  end.

End PyStr.

(** ** Configuration trees *)

(** A finished tree is a dictionary from command text to the subtree of the
    lines nested below that command. *)
#[warnings="-register-all"]
Inductive tree : Type := Dict { children : gmap string tree }.

Definition empty_tree : tree := Dict ∅.

Global Instance tree_inhabited : Inhabited tree := populate empty_tree.

(** [key in t] *)
Definition contains (t : tree) (key : string) : bool :=
  bool_decide (is_Some (children t !! key)).

(** [t[key]].  [diff_trees] reads a key only from a tree that holds it; a
    missing key reads as the empty dictionary, as in a [defaultdict(dict)],
    which no key of the union ever exercises. *)
Definition getitem (t : tree) (key : string) : tree :=
  default empty_tree (children t !! key).

(** [set(t)]: the keys of a dictionary as a set. *)
Definition keys (t : tree) : gset string := dom (children t).

(** Nesting depth below a dictionary and number of nodes below it. *)
Fixpoint height (t : tree) : nat :=
  map_fold (fun _ c acc => Nat.max (S (height c)) acc) O (children t).

Fixpoint tsize (t : tree) : nat :=
  map_fold (fun _ c acc => S (tsize c + acc)) O (children t).

(** Walk down a chain of keys. *)
Fixpoint subtree (t : tree) (path : list string) : option tree :=
  match path with
  | [] => Some t
  | k :: rest =>
      match children t !! k with
      | Some c => subtree c rest
      | None => None
      end
  end.

(** ** Iteration order of a set union *)

(** [for key in set(a) | set(b)] visits every element of the union once, in
    an order the language does not fix: any enumeration of the union,
    chosen from the two operands, is admissible. *)
Record SetOrder : Type := {
  union_iter : gset string → gset string → list string;
  union_iter_NoDup : ∀ a b, NoDup (union_iter a b);
  union_iter_elem : ∀ a b k, k ∈ union_iter a b ↔ k ∈ a ∪ b
}.

(** Three admissible orders: the canonical enumeration of the union, the keys
    of the left operand first, and the keys of the right operand first. *)
Program Definition canonical_order : SetOrder :=
  {| union_iter a b := elements (a ∪ b) |}.
Next Obligation. intros. apply NoDup_elements. Qed.
Next Obligation. intros. apply elem_of_elements. Qed.

Program Definition left_first : SetOrder :=
  {| union_iter a b := elements a ++ elements (b ∖ a) |}.
Next Obligation.
  intros a b. apply NoDup_app. split; [apply NoDup_elements|].
  split; [|apply NoDup_elements].
  intros k. rewrite !elem_of_elements. set_solver.
Qed.
Next Obligation.
  intros a b k. rewrite elem_of_app, !elem_of_elements.
  rewrite elem_of_union, elem_of_difference.
  destruct (decide (k ∈ a)); naive_solver.
Qed.

Program Definition right_first : SetOrder :=
  {| union_iter a b := elements b ++ elements (a ∖ b) |}.
Next Obligation.
  intros a b. apply NoDup_app. split; [apply NoDup_elements|].
  split; [|apply NoDup_elements].
  intros k. rewrite !elem_of_elements. set_solver.
Qed.
Next Obligation.
  intros a b k. rewrite elem_of_app, !elem_of_elements.
  rewrite elem_of_union, elem_of_difference.
  destruct (decide (k ∈ b)); naive_solver.
Qed.

(** ** diff_trees *)

(** One line of the report: the keys enclosing it (outermost first), its
    marker and its command text. *)
Inductive marker : Type := Removed | Added | Header.

Record entry : Type := Entry {
  e_path : list string;
  e_mark : marker;
  e_key : string
}.

Global Instance marker_eq_dec : EqDecision marker.
Proof. solve_decision. Defined.

Global Instance entry_eq_dec : EqDecision entry.
Proof. solve_decision. Defined.

(** The node an entry is about, as a chain of keys from the root. *)
Definition node_path (e : entry) : list string := e_path e ++ [e_key e].

(** Exchange of the roles of the old and the new tree. *)
Definition swap_mark (m : marker) : marker :=
  match m with Removed => Added | Added => Removed | Header => Header end.

Definition swap_entry (e : entry) : entry :=
  Entry (e_path e) (swap_mark (e_mark e)) (e_key e).

Definition removed_line (indent : Z) (key : string) : string :=
  PyStr.mul "  " indent +:+ "- " +:+ key.
Definition added_line (indent : Z) (key : string) : string :=
  PyStr.mul "  " indent +:+ "+ " +:+ key.
Definition header_line (indent : Z) (key : string) : string :=
  PyStr.mul "  " indent +:+ key.

(** The text of an entry in a report whose top level is at depth [base]. *)
Definition render (base : Z) (e : entry) : string :=
  let indent := (base + Z.of_nat (length (e_path e)))%Z in
  match e_mark e with
  | Removed => removed_line indent (e_key e)
  | Added => added_line indent (e_key e)
  | Header => header_line indent (e_key e)
  end.

Section Differ.

Variable o : SetOrder.

(** The body of the [for] loop for one key, given the recursive call. *)
Definition diff_key (rec : tree → tree → Z → list string)
    (old_tree new_tree : tree) (indent : Z) (key : string) : list string :=
  if contains old_tree key && negb (contains new_tree key) then
    removed_line indent key :: rec (getitem old_tree key) empty_tree (indent + 1)%Z
  else if contains new_tree key && negb (contains old_tree key) then
    added_line indent key :: rec empty_tree (getitem new_tree key) (indent + 1)%Z
  else
    let child_diff := rec (getitem old_tree key) (getitem new_tree key) (indent + 1)%Z in
    match child_diff with
    | [] => []
    | _ => header_line indent key :: child_diff
    end.

(** The recursion of [diff_trees], bounded by a recursion budget. *)
Fixpoint diff_trees_rec (fuel : nat) (old_tree new_tree : tree) (indent : Z)
    : list string :=
  match fuel with
  | O => []
  | S fuel' =>
      flat_map (diff_key (diff_trees_rec fuel') old_tree new_tree indent)
               (union_iter o (keys old_tree) (keys new_tree))
  end.

(** [diff_trees(old_tree, new_tree, indent)]: the budget is one more than
    the deeper of the two trees, which the recursion never exhausts
    (see [diff_trees_unfold]). *)
Definition diff_trees (old_tree new_tree : tree) (indent : Z) : list string :=
  diff_trees_rec (S (Nat.max (height old_tree) (height new_tree)))
                 old_tree new_tree indent.

(** *** The report as structured entries

    The same traversal, recording for every line the chain of enclosing
    keys instead of rendering it.  [diff_trees_render] shows that the
    report of [diff_trees] is the rendering of these entries. *)

Definition entries_key (rec : tree → tree → list string → list entry)
    (old_tree new_tree : tree) (path : list string) (key : string) : list entry :=
  if contains old_tree key && negb (contains new_tree key) then
    Entry path Removed key :: rec (getitem old_tree key) empty_tree (path ++ [key])
  else if contains new_tree key && negb (contains old_tree key) then
    Entry path Added key :: rec empty_tree (getitem new_tree key) (path ++ [key])
  else
    let child_diff := rec (getitem old_tree key) (getitem new_tree key) (path ++ [key]) in
    match child_diff with
    | [] => []
    | _ => Entry path Header key :: child_diff
    end.

Fixpoint diff_entries_rec (fuel : nat) (old_tree new_tree : tree)
    (path : list string) : list entry :=
  match fuel with
  | O => []
  | S fuel' =>
      flat_map (entries_key (diff_entries_rec fuel') old_tree new_tree path)
               (union_iter o (keys old_tree) (keys new_tree))
  end.

Definition diff_entries (old_tree new_tree : tree) (path : list string) : list entry :=
  diff_entries_rec (S (Nat.max (height old_tree) (height new_tree)))
                   old_tree new_tree path.

End Differ.

(** *** The recursion limit

    Every call of [diff_trees] takes one frame of the interpreter's call
    stack, and a call made when no frame is left raises [RecursionError],
    which nothing in the function catches.  [diff_trees_call frames] is the
    call made with [frames] frames left; [None] stands for the exception. *)

Section DifferFrames.

Variable o : SetOrder.

(** The body of the [for] loop for one key: the lines it adds to
    [diff_lines], unless the recursive call raises. *)
Definition call_key (rec : tree → tree → Z → option (list string))
    (old_tree new_tree : tree) (indent : Z) (key : string) : option (list string) :=
  if contains old_tree key && negb (contains new_tree key) then
    match rec (getitem old_tree key) empty_tree (indent + 1)%Z with
    | Some child_diff => Some (removed_line indent key :: child_diff)
    | None => None
    end
  else if contains new_tree key && negb (contains old_tree key) then
    match rec empty_tree (getitem new_tree key) (indent + 1)%Z with
    | Some child_diff => Some (added_line indent key :: child_diff)
    | None => None
    end
  else
    match rec (getitem old_tree key) (getitem new_tree key) (indent + 1)%Z with
    | Some child_diff =>
        Some (match child_diff with
              | [] => []
              | _ => header_line indent key :: child_diff
              end)
    | None => None
    end.

(** The [for] loop: the keys in turn, each adding its lines to [diff_lines];
    an exception raised in the body ends the loop and the call. *)
Fixpoint for_keys (body : string → option (list string)) (all_keys : list string)
    (diff_lines : list string) : option (list string) :=
  match all_keys with
  | [] => Some diff_lines
  | key :: rest =>
      match body key with
      | Some added => for_keys body rest (diff_lines ++ added)
      | None => None
      end
  end.

Fixpoint diff_trees_call (frames : nat) (old_tree new_tree : tree) (indent : Z)
    : option (list string) :=
  match frames with
  | O => None
  | S frames' =>
      for_keys (call_key (diff_trees_call frames') old_tree new_tree indent)
               (union_iter o (keys old_tree) (keys new_tree)) []
  end.

End DifferFrames.

(** ** build_tree *)

(** Dictionary objects live in a store and are named by their allocation
    index; [root] is the first object allocated. *)
Abbreviation addr := nat (only parsing).
Abbreviation store := (list (gmap string nat)) (only parsing).

(** [defaultdict(dict)]: a fresh empty dictionary. *)
Definition alloc (h : store) : store * addr := (h ++ [∅], length h).

(** [d[key] = v] on the dictionary object at address [d]. *)
Definition setitem (h : store) (d : addr) (key : string) (v : addr) : store :=
  alter (insert key v) d h.

(** The loop state: the store and the indentation stack, top first. *)
Record builder : Type := { heap : store; stack : list (Z * addr) }.

Definition root : addr := O.

(** [root = defaultdict(dict); stack = [(-1, root)]] *)
Definition init : builder := {| heap := [∅]; stack := [((-1)%Z, root)] |}.

(** [while stack and stack[-1][0] >= indent: stack.pop()] *)
Fixpoint pop_while (indent : Z) (stk : list (Z * addr)) : list (Z * addr) :=
  match stk with
  | [] => []
  | (i, a) :: rest => if (indent <=? i)%Z then pop_while indent rest else stk
  end.

(** [not raw_line.strip() or raw_line.lstrip() == '!'] with
    [raw_line = line.rstrip()] *)
Definition skipped (line : string) : bool :=
  let raw_line := PyStr.rstrip line in
  PyStr.is_empty (PyStr.strip raw_line) || String.eqb (PyStr.lstrip raw_line) "!".

(** [len(line) - len(line.lstrip())] *)
Definition indent_of (line : string) : Z :=
  (PyStr.len line - PyStr.len (PyStr.lstrip line))%Z.

(** [line.rstrip().strip()] *)
Definition cmd_of (line : string) : string := PyStr.strip (PyStr.rstrip line).

(** One iteration of the [for] loop; [None] is the [IndexError] that reading
    [stack[-1]] of an empty stack would raise. *)
Definition step (st : builder) (line : string) : option builder :=
  if skipped line then Some st
  else
    let indent := indent_of line in
    let cmd := cmd_of line in
    let stk := pop_while indent (pop_while indent (stack st)) in
    match stk with
    | [] => None
    | (_, parent) :: _ =>
        let '(h, fresh) := alloc (heap st) in
        Some {| heap := setitem h parent cmd fresh;
                stack := (indent, fresh) :: stk |}
    end.

Fixpoint run (st : builder) (config_lines : list string) : option builder :=
  match config_lines with
  | [] => Some st
  | line :: rest =>
      match step st line with
      | Some st' => run st' rest
      | None => None
      end
  end.

(** The tree rooted at an address, read back from the store.  Children are
    allocated after their parent, so a budget of the store's length reaches
    every node (see [reify_stable]). *)
Fixpoint reify (fuel : nat) (h : store) (a : addr) : tree :=
  match fuel with
  | O => empty_tree
  | S fuel' => Dict (reify fuel' h <$> default ∅ (h !! a))
  end.

Definition tree_at (h : store) (a : addr) : tree := reify (length h) h a.

(** [build_tree(config_lines)] *)
Definition build_tree (config_lines : list string) : option tree :=
  match run init config_lines with
  | Some st => Some (tree_at (heap st) root)
  | None => None
  end.

(** [parent = stack[-1][1]] as the loop computes it for [line] after the
    lines of [pre]: the dictionary that receives the node of [line]. *)
Definition resolved_parent (pre : list string) (line : string) : option addr :=
  match run init pre with
  | Some st =>
      match pop_while (indent_of line) (pop_while (indent_of line) (stack st)) with
      | (_, parent) :: _ => Some parent
      | [] => None
      end
  | None => None
  end.

(** Following a chain of keys through the store. *)
Fixpoint walk (h : store) (a : addr) (path : list string) : option addr :=
  match path with
  | [] => Some a
  | k :: rest =>
      match h !! a with
      | Some d =>
          match d !! k with
          | Some b => walk h b rest
          | None => None
          end
      | None => None
      end
  end.

(** ** The nesting that indentation expresses *)

(** Number of nodes a list of lines creates: one for every line that is not
    skipped.  Dictionaries are allocated in line order after the root, so
    the node of the line that follows [before] is [node_after before]. *)
Fixpoint emitted (ls : list string) : nat :=
  match ls with
  | [] => O
  | l :: rest => if skipped l then emitted rest else S (emitted rest)
  end.

Definition node_after (before : list string) : addr := S (emitted before).

(** Scanning backward from a line of indentation [ind] ([back] lists the
    earlier lines, nearest first): the nearest line that is not skipped and
    is indented strictly less encloses the line; what encloses that line is
    found the same way from there on.  Each enclosing line comes with the
    lines before it. *)
Fixpoint enclosing (back : list string) (ind : Z) : list (string * list string) :=
  match back with
  | [] => []
  | l :: before =>
      if negb (skipped l) && (indent_of l <? ind)%Z
      then (l, before) :: enclosing before (indent_of l)
      else enclosing before ind
  end.

(** The scopes still open after the lines of [back]: the last line that is
    not skipped, and the lines enclosing it. *)
Fixpoint open_scopes (back : list string) : list (string * list string) :=
  match back with
  | [] => []
  | l :: before =>
      if skipped l then open_scopes before
      else (l, before) :: enclosing before (indent_of l)
  end.

(** The stack entry of an enclosing line. *)
Definition scope_entry (x : string * list string) : Z * addr :=
  (indent_of x.1, node_after x.2).

(** The keys from the root down to the innermost of a chain of scopes. *)
Definition scope_path (chain : list (string * list string)) : list string :=
  map (fun x => cmd_of x.1) (rev chain).

(** The address of the innermost scope of a chain; the root when there is
    none. *)
Definition scope_addr (chain : list (string * list string)) : addr :=
  match chain with
  | [] => root
  | x :: _ => node_after x.2
  end.

(** Children are allocated after their parent. *)
Definition store_ordered (h : store) : Prop :=
  ∀ a d k b, h !! a = Some d → d !! k = Some b → (a < b < length h)%nat.

(** Every scope of a chain is entered, in the store, as a child of the scope
    that encloses it, under its command text. *)
Fixpoint linked (h : store) (chain : list (string * list string)) : Prop :=
  match chain with
  | [] => True
  | x :: rest =>
      walk h (scope_addr rest) [cmd_of x.1] = Some (node_after x.2)
      ∧ linked h rest
  end.

(** Outer scopes were created before inner ones. *)
Fixpoint descending (chain : list (string * list string)) : Prop :=
  match chain with
  | [] => True
  | x :: rest => (scope_addr rest < node_after x.2)%nat ∧ descending rest
  end.

(** *** Building below a node

    The lines nested below a line build, under its node, what they would
    build on their own under a root: the second run is the first one with
    every address moved up by the address [n] of the node. *)

Definition shift (n : nat) (d : gmap string nat) : gmap string nat :=
  Nat.add n <$> d.

Definition shift_entry (n : nat) (e : Z * nat) : Z * nat := (e.1, (n + e.2)%nat).

(** [st] works below the node [length pfx], whose stack entry has
    indentation [ind] and lies on [base]; [st'] does the same work from a
    root of its own.  [pfx] is the part of the store older than the node. *)
Definition below (pfx : list (gmap string nat)) (ind : Z) (base : list (Z * nat))
    (st st' : builder) : Prop :=
  ∃ body,
    stack st' = body ++ [((-1)%Z, root)]
    ∧ stack st = map (shift_entry (length pfx)) body ++ (ind, length pfx) :: base
    ∧ Forall (fun e => (ind < e.1)%Z) body
    ∧ heap st = pfx ++ map (shift (length pfx)) (heap st').

(** Once the lines below the node [n] are over, the dictionaries [region]
    created for them are out of reach of the stack: it holds older and
    younger addresses only. *)
Definition frozen (n : nat) (region : list (gmap string nat)) (st : builder) : Prop :=
  ∃ pfx extra,
    length pfx = n
    ∧ heap st = pfx ++ region ++ extra
    ∧ Forall (fun e => (e.2 < n)%nat ∨ (n + length region ≤ e.2)%nat) (stack st).

(** [ls'] is [ls] with lines inserted whose trimmed content is empty or a
    lone "!". *)
Inductive skip_inserted : list string → list string → Prop :=
  | skip_inserted_nil : skip_inserted [] []
  | skip_inserted_keep l ls ls' :
      skip_inserted ls ls' → skip_inserted (l :: ls) (l :: ls')
  | skip_inserted_add s ls ls' :
      PyStr.strip s = "" ∨ PyStr.strip s = "!" →
      skip_inserted ls ls' → skip_inserted ls (s :: ls').

(** ** The scenario of the specification *)

Definition old_lines : list string :=
  ["interface eth0"; "  ip address 1.2.3.4"; "!"].
Definition new_lines : list string :=
  ["interface eth0"; "  ip address 5.6.7.8"].

Definition old_scenario_tree : tree :=
  Dict {[ "interface eth0" := Dict {[ "ip address 1.2.3.4" := empty_tree ]} ]}.
Definition new_scenario_tree : tree :=
  Dict {[ "interface eth0" := Dict {[ "ip address 5.6.7.8" := empty_tree ]} ]}.


(** The removed block of the old scenario tree, and one mapping written in
    two insertion orders. *)
Definition eth0_old : tree := Dict {[ "ip address 1.2.3.4" := empty_tree ]}.
Definition eth0_new : tree := Dict {[ "ip address 5.6.7.8" := empty_tree ]}.
Definition ab_tree : tree := Dict (<["a" := empty_tree]> (<["b" := empty_tree]> ∅)).
Definition ba_tree : tree := Dict (<["b" := empty_tree]> (<["a" := empty_tree]> ∅)).

(** ** generate_diff *)


(** The line feed character. *)
Definition newline : string := String (ascii_of_nat 10) "".


(** Every key of every dictionary of the store satisfies [P]. *)
Definition store_keys (P : string → Prop) (h : store) : Prop :=
  ∀ a d k b, h !! a = Some d → d !! k = Some b → P k.

(** Two loop states that differ only in the indentation values recorded on
    the stack, which [f] carries from the one to the other. *)
Definition reindented (f : Z → Z) (st st' : builder) : Prop :=
  heap st' = heap st
  ∧ ∃ body,
      stack st = body ++ [((-1)%Z, root)]
      ∧ stack st' = map (fun e => (f e.1, e.2)) body ++ [((-1)%Z, root)].

(** *** Building beside what is already there

    After a line that closes every open scope the loop goes on as on a
    fresh input, except that the root already has entries [d0] and the store
    already holds the dictionaries [mid] made for them: a run [st'] from the
    initial state and the run [st] that continues an earlier one differ by
    the renaming [beside_addr] of addresses, and the root of [st] holds the
    renamed root entries of [st'] on top of [d0]. *)

Definition beside_addr (gap : nat) (a : nat) : nat :=
  match a with
  | O => O
  | S j => S (gap + j)
  end.

Definition beside (d0 : gmap string nat) (mid : list (gmap string nat))
    (st st' : builder) : Prop :=
  stack st = map (fun e => (e.1, beside_addr (length mid) e.2)) (stack st')
  ∧ ∃ d' tl',
      heap st' = d' :: tl'
      ∧ heap st = ((beside_addr (length mid) <$> d') ∪ d0)
                  :: mid ++ map (fmap (beside_addr (length mid))) tl'.

(** The trimmed texts of the lines that are not skipped, in input order. *)
Fixpoint commands (ls : list string) : list string :=
  match ls with
  | [] => []
  | l :: rest => if skipped l then commands rest else cmd_of l :: commands rest
  end.

(** ** What a report entry says about the two trees *)

(** The status of a node in the two trees, given what each tree holds at the
    node's chain of keys: only the old tree holds it, only the new one does,
    or both do with different subtrees. *)
Definition node_status (m : marker) (in_old in_new : option tree) : Prop :=
  match m with
  | Removed => is_Some in_old ∧ in_new = None
  | Added => in_old = None ∧ is_Some in_new
  | Header => ∃ a b, in_old = Some a ∧ in_new = Some b ∧ a ≠ b
  end.

(** ** Deeply nested input *)

(** [" " * n + cmd] *)
Fixpoint indented (n : nat) (cmd : string) : string :=
  match n with
  | O => cmd
  | S n' => String " " (indented n' cmd)
  end.

(** [n] lines reading "a", the first indented by [i] spaces and each of the
    others by one space more than the line before it. *)
Fixpoint staircase (i n : nat) : list string :=
  match n with
  | O => []
  | S n' => indented i "a" :: staircase (S i) n'
  end.

(** The tree of [n] dictionaries nested in one another under the key "a". *)
Fixpoint chain (n : nat) : tree :=
  match n with
  | O => empty_tree
  | S n' => Dict {[ "a" := chain n' ]}
  end.

(** * Properties *)

(** ** Trees *)

Lemma height_unfold (m : gmap string tree) :
  height (Dict m) = map_fold (fun _ c acc => Nat.max (S (height c)) acc) O m.
Proof. reflexivity. Qed.

Lemma tsize_unfold (m : gmap string tree) :
  tsize (Dict m) = map_fold (fun _ c acc => S (tsize c + acc)) O m.
Proof. reflexivity. Qed.

Lemma height_child (t c : tree) (k : string) :
  children t !! k = Some c → (height c < height t)%nat.
Proof.
  destruct t as [m]; simpl children. rewrite height_unfold. revert k c.
  apply (map_fold_weak_ind
    (fun r (m : gmap string tree) => ∀ k c, m !! k = Some c → (height c < r)%nat)).
  - intros k c H. by rewrite lookup_empty in H.
  - intros i x m' r Hi IH k c Hk.
    destruct (decide (i = k)) as [->|Hne].
    + rewrite lookup_insert_eq in Hk. injection Hk as ->. lia.
    + rewrite lookup_insert_ne in Hk by done. specialize (IH k c Hk). lia.
Qed.

Lemma height_empty : height empty_tree = O.
Proof. unfold empty_tree. rewrite height_unfold. apply map_fold_empty. Qed.

(** Induction on trees: a property that passes from the children of a
    dictionary to the dictionary holds of every tree. *)
Lemma tree_children_ind (P : tree → Prop) :
  (∀ t, (∀ k c, children t !! k = Some c → P c) → P t) → ∀ t, P t.
Proof.
  intros step t.
  assert (H : ∀ n t, (height t < n)%nat → P t).
  { induction n as [|n IH]; intros t' Hlt; [lia|].
    apply step. intros k c Hk. apply IH.
    pose proof (height_child _ _ _ Hk). lia. }
  apply (H (S (height t))). lia.
Qed.

Lemma contains_true (t : tree) (k : string) :
  contains t k = true ↔ ∃ c, children t !! k = Some c.
Proof. unfold contains. rewrite bool_decide_eq_true. reflexivity. Qed.

Lemma contains_false (t : tree) (k : string) :
  contains t k = false ↔ children t !! k = None.
Proof.
  unfold contains. rewrite bool_decide_eq_false.
  rewrite <- eq_None_not_Some. reflexivity.
Qed.

Lemma contains_keys (t : tree) (k : string) :
  contains t k = true ↔ k ∈ keys t.
Proof. rewrite contains_true. unfold keys. rewrite elem_of_dom. reflexivity. Qed.

Lemma getitem_Some (t c : tree) (k : string) :
  children t !! k = Some c → getitem t k = c.
Proof. unfold getitem. by intros ->. Qed.

Lemma getitem_None (t : tree) (k : string) :
  children t !! k = None → getitem t k = empty_tree.
Proof. unfold getitem. by intros ->. Qed.

Lemma contains_empty (k : string) : contains empty_tree k = false.
Proof. apply contains_false. apply lookup_empty. Qed.

Lemma keys_empty : keys empty_tree = ∅.
Proof. unfold keys, empty_tree. simpl. apply dom_empty_L. Qed.

Lemma height_getitem (t : tree) (k : string) :
  (height (getitem t k) ≤ Nat.pred (height t))%nat.
Proof.
  destruct (children t !! k) as [c|] eqn:Hk.
  - rewrite (getitem_Some _ _ _ Hk). pose proof (height_child _ _ _ Hk). lia.
  - rewrite (getitem_None _ _ Hk), height_empty. lia.
Qed.

(** Induction on a pair of trees along the recursion of [diff_trees]. *)
Lemma tree_pair_ind (P : tree → tree → Prop) :
  (∀ a b, (∀ k, k ∈ keys a ∪ keys b → P (getitem a k) (getitem b k)) → P a b) →
  ∀ a b, P a b.
Proof.
  intros step a b.
  assert (H : ∀ n a b, (height a + height b < n)%nat → P a b).
  { induction n as [|n IH]; intros a' b' Hlt; [lia|].
    apply step. intros k Hk. apply IH.
    pose proof (height_getitem a' k). pose proof (height_getitem b' k).
    apply elem_of_union in Hk as [Hk|Hk]; apply contains_keys, contains_true in Hk;
      destruct Hk as [c Hc]; pose proof (height_child _ _ _ Hc); lia. }
  apply (H (S (height a + height b))). lia.
Qed.

(** ** The recursion budget of diff_trees is never exhausted *)

Section DifferFacts.

Variable o : SetOrder.

Lemma diff_key_ext (f g : tree → tree → Z → list string) old_tree new_tree indent key :
  (∀ a b, f a b (indent + 1)%Z = g a b (indent + 1)%Z) →
  diff_key f old_tree new_tree indent key = diff_key g old_tree new_tree indent key.
Proof. intros H. unfold diff_key. rewrite !H. reflexivity. Qed.

Lemma union_iter_empty : union_iter o ∅ ∅ = [].
Proof.
  destruct (union_iter o ∅ ∅) as [|k l] eqn:E; [reflexivity|].
  assert (H : k ∈ union_iter o ∅ ∅) by (rewrite E; left).
  apply union_iter_elem in H. set_solver.
Qed.

Lemma diff_trees_rec_empty (fuel : nat) (indent : Z) :
  diff_trees_rec o fuel empty_tree empty_tree indent = [].
Proof.
  destruct fuel as [|fuel]; [reflexivity|]. simpl.
  rewrite keys_empty, union_iter_empty. reflexivity.
Qed.

Lemma diff_trees_rec_stable (f1 f2 : nat) :
  ∀ old_tree new_tree indent,
    (height old_tree < f1)%nat → (height new_tree < f1)%nat →
    (height old_tree < f2)%nat → (height new_tree < f2)%nat →
    diff_trees_rec o f1 old_tree new_tree indent
    = diff_trees_rec o f2 old_tree new_tree indent.
Proof.
  revert f2. induction f1 as [|f1 IH]; intros f2 old_tree new_tree indent H1 H2 H3 H4;
    [lia|].
  destruct f2 as [|f2]; [lia|]. simpl.
  apply flat_map_ext. intros key.
  unfold diff_key.
  destruct (contains old_tree key) eqn:Eo; destruct (contains new_tree key) eqn:En; simpl.
  - apply contains_true in Eo as [c Hc]. apply contains_true in En as [c' Hc'].
    pose proof (height_child _ _ _ Hc). pose proof (height_child _ _ _ Hc').
    rewrite (getitem_Some _ _ _ Hc), (getitem_Some _ _ _ Hc').
    rewrite (IH f2) by lia. reflexivity.
  - apply contains_true in Eo as [c Hc].
    pose proof (height_child _ _ _ Hc). rewrite (getitem_Some _ _ _ Hc).
    rewrite (IH f2) by (rewrite ?height_empty; lia). reflexivity.
  - apply contains_true in En as [c Hc].
    pose proof (height_child _ _ _ Hc). rewrite (getitem_Some _ _ _ Hc).
    rewrite (IH f2) by (rewrite ?height_empty; lia). reflexivity.
  - apply contains_false in Eo, En.
    rewrite (getitem_None _ _ Eo), (getitem_None _ _ En).
    rewrite !diff_trees_rec_empty. reflexivity.
Qed.

(** The defining equation of [diff_trees]: one pass over the union of the
    keys, each key handled by the loop body with [diff_trees] itself as the
    recursive call. *)
Lemma diff_trees_unfold (old_tree new_tree : tree) (indent : Z) :
  diff_trees o old_tree new_tree indent
  = flat_map (diff_key (diff_trees o) old_tree new_tree indent)
             (union_iter o (keys old_tree) (keys new_tree)).
Proof.
  unfold diff_trees at 1. simpl.
  apply flat_map_ext. intros key. unfold diff_key.
  set (n := Nat.max (height old_tree) (height new_tree)).
  assert (Hrec : ∀ a b d, (height a ≤ Nat.pred (height old_tree))%nat →
                          (height b ≤ Nat.pred (height new_tree))%nat →
                          (0 < n)%nat →
                          diff_trees_rec o n a b d = diff_trees o a b d).
  { intros a b d Ha Hb Hn. unfold diff_trees.
    apply diff_trees_rec_stable; subst n; lia. }
  destruct (contains old_tree key) eqn:Eo; destruct (contains new_tree key) eqn:En; simpl.
  - apply contains_true in Eo as [c Hc].
    pose proof (height_child _ _ _ Hc).
    rewrite Hrec; [reflexivity|apply height_getitem|apply height_getitem|subst n; lia].
  - apply contains_true in Eo as [c Hc].
    pose proof (height_child _ _ _ Hc).
    rewrite Hrec; [reflexivity|apply height_getitem|rewrite height_empty; lia|subst n; lia].
  - apply contains_true in En as [c Hc].
    pose proof (height_child _ _ _ Hc).
    rewrite Hrec; [reflexivity|rewrite height_empty; lia|apply height_getitem|subst n; lia].
  - apply contains_false in Eo, En.
    rewrite (getitem_None _ _ Eo), (getitem_None _ _ En).
    unfold diff_trees. rewrite !diff_trees_rec_empty. reflexivity.
Qed.

(** The same facts for the structured report. *)

Lemma diff_entries_rec_empty (fuel : nat) (path : list string) :
  diff_entries_rec o fuel empty_tree empty_tree path = [].
Proof.
  destruct fuel as [|fuel]; [reflexivity|]. simpl.
  rewrite keys_empty, union_iter_empty. reflexivity.
Qed.

Lemma diff_entries_rec_stable (f1 f2 : nat) :
  ∀ old_tree new_tree path,
    (height old_tree < f1)%nat → (height new_tree < f1)%nat →
    (height old_tree < f2)%nat → (height new_tree < f2)%nat →
    diff_entries_rec o f1 old_tree new_tree path
    = diff_entries_rec o f2 old_tree new_tree path.
Proof.
  revert f2. induction f1 as [|f1 IH]; intros f2 old_tree new_tree path H1 H2 H3 H4;
    [lia|].
  destruct f2 as [|f2]; [lia|]. simpl.
  apply flat_map_ext. intros key.
  unfold entries_key.
  pose proof (height_getitem old_tree key) as Ho.
  pose proof (height_getitem new_tree key) as Hn.
  destruct (contains old_tree key) eqn:Eo; destruct (contains new_tree key) eqn:En; simpl.
  - apply contains_true in Eo as [c Hc]. pose proof (height_child _ _ _ Hc).
    rewrite (IH f2) by lia. reflexivity.
  - apply contains_true in Eo as [c Hc]. pose proof (height_child _ _ _ Hc).
    rewrite (IH f2) by (rewrite ?height_empty; lia). reflexivity.
  - apply contains_true in En as [c Hc]. pose proof (height_child _ _ _ Hc).
    rewrite (IH f2) by (rewrite ?height_empty; lia). reflexivity.
  - apply contains_false in Eo, En.
    rewrite (getitem_None _ _ Eo), (getitem_None _ _ En).
    rewrite !diff_entries_rec_empty. reflexivity.
Qed.

Lemma diff_entries_unfold (old_tree new_tree : tree) (path : list string) :
  diff_entries o old_tree new_tree path
  = flat_map (entries_key (diff_entries o) old_tree new_tree path)
             (union_iter o (keys old_tree) (keys new_tree)).
Proof.
  unfold diff_entries at 1. simpl.
  apply flat_map_ext. intros key. unfold entries_key.
  set (n := Nat.max (height old_tree) (height new_tree)).
  pose proof (height_getitem old_tree key) as Ho.
  pose proof (height_getitem new_tree key) as Hn.
  assert (Hrec : ∀ a b d, (height a ≤ Nat.pred (height old_tree))%nat →
                          (height b ≤ Nat.pred (height new_tree))%nat →
                          (0 < n)%nat →
                          diff_entries_rec o n a b d = diff_entries o a b d).
  { intros a b d Ha Hb Hpos. unfold diff_entries.
    apply diff_entries_rec_stable; subst n; lia. }
  destruct (contains old_tree key) eqn:Eo; destruct (contains new_tree key) eqn:En; simpl.
  - apply contains_true in Eo as [c Hc]. pose proof (height_child _ _ _ Hc).
    rewrite Hrec; [reflexivity|lia|lia|subst n; lia].
  - apply contains_true in Eo as [c Hc]. pose proof (height_child _ _ _ Hc).
    rewrite Hrec; [reflexivity|lia|rewrite height_empty; lia|subst n; lia].
  - apply contains_true in En as [c Hc]. pose proof (height_child _ _ _ Hc).
    rewrite Hrec; [reflexivity|rewrite height_empty; lia|lia|subst n; lia].
  - apply contains_false in Eo, En.
    rewrite (getitem_None _ _ Eo), (getitem_None _ _ En).
    unfold diff_entries. rewrite !diff_entries_rec_empty. reflexivity.
Qed.

(** The report of [diff_trees] is the rendering of the structured one. *)
Lemma diff_trees_rec_render (fuel : nat) :
  ∀ old_tree new_tree base path,
    diff_trees_rec o fuel old_tree new_tree (base + Z.of_nat (length path))%Z
    = map (render base) (diff_entries_rec o fuel old_tree new_tree path).
Proof.
  induction fuel as [|fuel IH]; intros old_tree new_tree base path; [reflexivity|].
  simpl. rewrite flat_map_concat_map, (flat_map_concat_map (entries_key _ _ _ _)).
  rewrite concat_map, map_map. f_equal. apply map_ext. intros key.
  unfold diff_key, entries_key.
  assert (Hd : (base + Z.of_nat (length path) + 1 = base + Z.of_nat (length (path ++ [key])))%Z).
  { rewrite length_app. simpl. lia. }
  rewrite Hd, !IH.
  destruct (contains old_tree key && negb (contains new_tree key)); [reflexivity|].
  destruct (contains new_tree key && negb (contains old_tree key)); [reflexivity|].
  destruct (diff_entries_rec o fuel _ _ _); reflexivity.
Qed.

Lemma diff_trees_render (old_tree new_tree : tree) (base : Z) (path : list string) :
  diff_trees o old_tree new_tree (base + Z.of_nat (length path))%Z
  = map (render base) (diff_entries o old_tree new_tree path).
Proof. apply diff_trees_rec_render. Qed.

End DifferFacts.

(** ** Properties of diff_trees *)

Lemma flat_map_nil {A B : Type} (f : A → list B) (l : list A) :
  flat_map f l = [] ↔ ∀ x, x ∈ l → f x = [].
Proof.
  induction l as [|a l IH]; simpl.
  - split; [|reflexivity]. intros _ x Hx. inversion Hx.
  - split.
    + intros H x Hx. apply app_eq_nil in H as [Ha Hl].
      apply elem_of_cons in Hx as [->|Hx]; [exact Ha|]. by apply IH.
    + intros H. rewrite (H a) by left. simpl. apply IH.
      intros x Hx. apply H. by right.
Qed.

Lemma flat_map_ext_elem {A B : Type} (f g : A → list B) (l : list A) :
  (∀ x, x ∈ l → f x = g x) → flat_map f l = flat_map g l.
Proof.
  induction l as [|a l IH]; intros H; simpl; [reflexivity|].
  rewrite (H a) by left. rewrite IH; [reflexivity|].
  intros x Hx. apply H. by right.
Qed.

Lemma flat_map_split {A B : Type} (f : A → list B) (l : list A) (x : A) :
  x ∈ l → NoDup l →
  ∃ l1 l2, l = l1 ++ x :: l2 ∧ (x ∉ l1) ∧ (x ∉ l2) ∧
           flat_map f l = (flat_map f l1 ++ f x ++ flat_map f l2).
Proof.
  intros Hx Hnd. apply list_elem_of_split in Hx as (l1 & l2 & ->).
  exists l1, l2. apply NoDup_app in Hnd as (_ & Hdisj & Hnd2).
  apply NoDup_cons in Hnd2 as [Hx2 _].
  repeat split; try done.
  - intros Hin. apply (Hdisj _ Hin). left.
  - rewrite flat_map_app. reflexivity.
Qed.

Lemma prefix_snoc_inj (p x : list string) (k k' : string) :
  (p ++ [k]) `prefix_of` x → (p ++ [k']) `prefix_of` x → k = k'.
Proof.
  intros [r1 H1] [r2 H2]. rewrite H1 in H2.
  rewrite <- !app_assoc in H2. apply app_inv_head in H2. by injection H2.
Qed.

Lemma map_eq_nil_inv {A B : Type} (f : A → B) (l : list A) : map f l = [] → l = [].
Proof. by destruct l. Qed.

Lemma NoDup_flat_map {A B : Type} (f : A → list B) (l : list A) :
  NoDup l → (∀ x, x ∈ l → NoDup (f x)) →
  (∀ x y e, x ∈ l → y ∈ l → e ∈ f x → e ∈ f y → x = y) →
  NoDup (flat_map f l).
Proof.
  induction l as [|a l IH]; intros Hnd Hf Hdisj; simpl; [constructor|].
  apply NoDup_cons in Hnd as [Ha Hnd]. apply NoDup_app. split; [|split].
  - apply Hf. left.
  - intros e He Hin. apply list_elem_of_In, in_flat_map in Hin as (y & Hy & Hey).
    apply list_elem_of_In in Hy, Hey.
    assert (a = y) as -> by (eapply Hdisj; eauto; [left|by right]).
    contradiction.
  - apply IH; [exact Hnd| |].
    + intros x Hx. apply Hf. by right.
    + intros x y e Hx Hy. apply Hdisj; by right.
Qed.

(** The number of nodes below a dictionary, summed over any enumeration of
    its keys. *)
Lemma tsize_enum (m : gmap string tree) :
  ∀ l : list string, NoDup l → (∀ k, k ∈ l ↔ k ∈ dom m) →
    tsize (Dict m) = list_sum (map (fun k => S (tsize (getitem (Dict m) k))) l).
Proof.
  rewrite tsize_unfold. unfold getitem. simpl children.
  apply (map_fold_weak_ind
    (fun r (m : gmap string tree) =>
       ∀ l : list string, NoDup l → (∀ k, k ∈ l ↔ k ∈ dom m) →
         r = list_sum (map (fun k => S (tsize (default empty_tree (m !! k)))) l))).
  - intros l _ Hl. destruct l as [|k l]; [reflexivity|].
    exfalso. assert (H : k ∈ dom (∅ : gmap string tree)) by (apply Hl; left).
    rewrite dom_empty_L in H. by apply elem_of_empty in H.
  - intros i x m' r Hi IH l Hnd Hl.
    assert (Hin : i ∈ l) by (apply Hl; rewrite dom_insert_L; set_solver).
    apply list_elem_of_split in Hin as (l1 & l2 & ->).
    apply NoDup_app in Hnd as (Hnd1 & Hdisj & Hnd2).
    apply NoDup_cons in Hnd2 as [Hi2 Hnd2].
    assert (Hi1 : i ∉ l1) by (intros H; apply (Hdisj _ H); left).
    rewrite map_app, list_sum_app. simpl.
    rewrite lookup_insert_eq. simpl.
    assert (Hother : ∀ l', i ∉ l' →
      map (fun k => S (tsize (default empty_tree (<[i:=x]> m' !! k)))) l'
      = map (fun k => S (tsize (default empty_tree (m' !! k)))) l').
    { intros l' Hl'. apply map_ext_in. intros k Hk%list_elem_of_In.
      rewrite lookup_insert_ne; [reflexivity|]. intros ->. contradiction. }
    rewrite !Hother by assumption.
    rewrite (IH (l1 ++ l2)).
    + rewrite map_app, list_sum_app. lia.
    + apply NoDup_app. repeat split; try assumption.
      intros k Hk1 Hk2. apply (Hdisj _ Hk1). by right.
    + intros k. rewrite elem_of_app. specialize (Hl k).
      rewrite elem_of_app, elem_of_cons, dom_insert_L in Hl.
      apply not_elem_of_dom in Hi.
      split.
      * intros Hk. assert (k ≠ i) by (intros ->; destruct Hk; contradiction).
        set_solver.
      * intros Hk. assert (k ≠ i) by (intros ->; contradiction).
        set_solver.
Qed.

Section DifferProps.

Variable o : SetOrder.

Lemma diff_trees_refl (T : tree) (d : Z) : diff_trees o T T d = [].
Proof.
  revert d. induction T as [T IH] using tree_children_ind. intros d.
  rewrite diff_trees_unfold. apply flat_map_nil. intros key _.
  unfold diff_key.
  destruct (contains T key) eqn:E; simpl.
  - apply contains_true in E as [c Hc].
    rewrite (getitem_Some _ _ _ Hc), (IH _ _ Hc). reflexivity.
  - apply contains_false in E. rewrite (getitem_None _ _ E).
    unfold diff_trees. rewrite diff_trees_rec_empty. reflexivity.
Qed.

(** Both loop bodies hand the same pair of subtrees to the recursive call:
    where a key is missing on one side, reading it there gives the empty
    tree. *)
Lemma entries_key_shape (rec : tree → tree → list string → list entry) A B p k :
  entries_key rec A B p k =
    let cd := rec (getitem A k) (getitem B k) (p ++ [k]) in
    if contains A k && negb (contains B k) then Entry p Removed k :: cd
    else if contains B k && negb (contains A k) then Entry p Added k :: cd
    else match cd with [] => [] | _ => Entry p Header k :: cd end.
Proof.
  unfold entries_key.
  destruct (contains A k) eqn:Ea; destruct (contains B k) eqn:Eb; simpl; try reflexivity.
  - apply contains_false in Eb. by rewrite (getitem_None _ _ Eb).
  - apply contains_false in Ea. by rewrite (getitem_None _ _ Ea).
Qed.

Lemma entries_key_elem (rec : tree → tree → list string → list entry) A B p k e :
  e ∈ entries_key rec A B p k →
  (e_path e = p ∧ e_key e = k) ∨ e ∈ rec (getitem A k) (getitem B k) (p ++ [k]).
Proof.
  rewrite entries_key_shape. simpl.
  destruct (contains A k && negb (contains B k)).
  { intros [->|H]%elem_of_cons; [by left|by right]. }
  destruct (contains B k && negb (contains A k)).
  { intros [->|H]%elem_of_cons; [by left|by right]. }
  destruct (rec _ _ _) as [|e0 cd]; [by intros ?%elem_of_nil|].
  intros [->|H]%elem_of_cons; [by left|by right].
Qed.

(** Every entry of a report made below [p] is about a node below [p]. *)
Lemma diff_entries_below (A B : tree) :
  ∀ p e, e ∈ diff_entries o A B p → p `prefix_of` e_path e.
Proof.
  induction A, B as [A B IH] using tree_pair_ind. intros p e He.
  rewrite diff_entries_unfold in He.
  apply list_elem_of_In, in_flat_map in He as (k & Hk & He).
  apply list_elem_of_In in Hk, He. apply union_iter_elem in Hk.
  apply entries_key_elem in He as [[-> _]|He]; [reflexivity|].
  apply (IH _ Hk) in He. etrans; [|exact He]. by apply prefix_app_r.
Qed.

Lemma entries_key_below (A B : tree) p k e :
  e ∈ entries_key (diff_entries o) A B p k → (p ++ [k]) `prefix_of` node_path e.
Proof.
  intros He. apply entries_key_elem in He as [[Hp Hk]|He].
  - unfold node_path. by rewrite Hp, Hk.
  - apply diff_entries_below in He. unfold node_path. by apply prefix_app_r.
Qed.

(** The blocks of the other keys hold nothing about [k] or its descendants. *)
Lemma other_blocks_apart (A B : tree) p k (ks : list string) e :
  k ∉ ks → e ∈ flat_map (entries_key (diff_entries o) A B p) ks →
  ¬ (p ++ [k]) `prefix_of` node_path e.
Proof.
  intros Hk He Hpre.
  apply list_elem_of_In, in_flat_map in He as (k' & Hk' & He).
  apply list_elem_of_In in Hk', He. apply entries_key_below in He.
  rewrite (prefix_snoc_inj _ _ _ _ Hpre He) in Hk. contradiction.
Qed.

(** The report splits around the block of any key of the union. *)
Lemma diff_entries_split (A B : tree) p k :
  k ∈ keys A ∪ keys B →
  ∃ before after,
    diff_entries o A B p
      = before ++ entries_key (diff_entries o) A B p k ++ after
    ∧ ∀ e, e ∈ before ++ after → ¬ (p ++ [k]) `prefix_of` node_path e.
Proof.
  intros Hk. apply (union_iter_elem o) in Hk.
  destruct (flat_map_split (entries_key (diff_entries o) A B p) _ _ Hk
              (union_iter_NoDup o _ _)) as (l1 & l2 & _ & H1 & H2 & Heq).
  exists (flat_map (entries_key (diff_entries o) A B p) l1),
         (flat_map (entries_key (diff_entries o) A B p) l2).
  split; [rewrite diff_entries_unfold; exact Heq|].
  intros e [He|He]%elem_of_app.
  - exact (other_blocks_apart _ _ _ _ _ _ H1 He).
  - exact (other_blocks_apart _ _ _ _ _ _ H2 He).
Qed.

Lemma diff_entries_same (T : tree) p : diff_entries o T T p = [].
Proof.
  apply (map_eq_nil_inv (render 0)). rewrite <- diff_trees_render.
  apply diff_trees_refl.
Qed.

(** Exchanging the two trees exchanges the markers, entry by entry. *)
Lemma diff_entries_swap_elem (A B : tree) :
  ∀ p e, e ∈ diff_entries o A B p → swap_entry e ∈ diff_entries o B A p.
Proof.
  induction A, B as [A B IH] using tree_pair_ind. intros p e He.
  rewrite diff_entries_unfold in He. rewrite diff_entries_unfold.
  apply list_elem_of_In, in_flat_map in He as (k & Hk & He).
  apply list_elem_of_In in Hk, He. apply union_iter_elem in Hk.
  apply list_elem_of_In, in_flat_map. exists k. split.
  { apply list_elem_of_In, union_iter_elem. set_solver. }
  apply list_elem_of_In.
  assert (Hcd : ∀ e', e' ∈ diff_entries o (getitem A k) (getitem B k) (p ++ [k]) →
                swap_entry e' ∈ diff_entries o (getitem B k) (getitem A k) (p ++ [k])).
  { intros e'. apply IH, Hk. }
  rewrite entries_key_shape in He. rewrite entries_key_shape. simpl in *.
  destruct (contains A k) eqn:Ea; destruct (contains B k) eqn:Eb; simpl in *.
  - destruct (diff_entries o (getitem A k) (getitem B k) (p ++ [k])) as [|e0 cd] eqn:E0;
      [by apply elem_of_nil in He|].
    assert (H0 : swap_entry e0 ∈ diff_entries o (getitem B k) (getitem A k) (p ++ [k])).
    { apply Hcd. left. }
    destruct (diff_entries o (getitem B k) (getitem A k) (p ++ [k])) as [|e1 cd'] eqn:E1;
      [by apply elem_of_nil in H0|].
    apply elem_of_cons in He as [->|He]; [left|right; by apply Hcd].
  - apply elem_of_cons in He as [->|He]; [left|right; by apply Hcd].
  - apply elem_of_cons in He as [->|He]; [left|right; by apply Hcd].
  - destruct (diff_entries o (getitem A k) (getitem B k) (p ++ [k])) as [|e0 cd] eqn:E0;
      [by apply elem_of_nil in He|].
    apply contains_false in Ea, Eb.
    rewrite (getitem_None _ _ Ea), (getitem_None _ _ Eb) in E0.
    unfold diff_entries in E0. rewrite diff_entries_rec_empty in E0. discriminate.
Qed.

Lemma swap_entry_involutive (e : entry) : swap_entry (swap_entry e) = e.
Proof. destruct e as [q [] k]; reflexivity. Qed.


(** *** Reports of a removed subtree *)

Lemma removed_unfold (t : tree) (p : list string) :
  diff_entries o t empty_tree p
  = flat_map (fun k => Entry p Removed k
                       :: diff_entries o (getitem t k) empty_tree (p ++ [k]))
             (union_iter o (keys t) ∅).
Proof.
  rewrite diff_entries_unfold, keys_empty. apply flat_map_ext_elem.
  intros k Hk%union_iter_elem.
  unfold entries_key. rewrite contains_empty. simpl.
  assert (Hc : contains t k = true) by (apply contains_keys; set_solver).
  rewrite Hc. reflexivity.
Qed.

Lemma removed_marks (t : tree) :
  ∀ p e, e ∈ diff_entries o t empty_tree p → e_mark e = Removed.
Proof.
  induction t as [t IH] using tree_children_ind. intros p e He.
  rewrite removed_unfold in He.
  apply list_elem_of_In, in_flat_map in He as (k & Hk & He).
  apply list_elem_of_In in Hk, He. apply union_iter_elem in Hk.
  apply elem_of_cons in He as [->|He]; [reflexivity|].
  assert (Hin : k ∈ keys t) by set_solver.
  apply contains_keys, contains_true in Hin as [c Hc].
  rewrite (getitem_Some _ _ _ Hc) in He. exact (IH _ _ Hc _ _ He).
Qed.

(** One entry for every node below the removed key. *)
Lemma removed_nodes (t : tree) :
  ∀ p q k', Entry (p ++ q) Removed k' ∈ diff_entries o t empty_tree p
            ↔ is_Some (subtree t (q ++ [k'])).
Proof.
  induction t as [t IH] using tree_children_ind. intros p q k'.
  rewrite removed_unfold. split.
  - intros He. apply list_elem_of_In, in_flat_map in He as (k & Hk & He).
    apply list_elem_of_In in Hk, He. apply union_iter_elem in Hk.
    assert (Hin : k ∈ keys t) by set_solver.
    apply contains_keys, contains_true in Hin as [c Hc].
    rewrite (getitem_Some _ _ _ Hc) in He.
    apply elem_of_cons in He as [Heq|He].
    + injection Heq as Hp ->.
      assert (q = []) as ->.
      { apply (app_inv_head p). by rewrite app_nil_r. }
      simpl. rewrite Hc. by eexists.
    + pose proof (diff_entries_below _ _ _ _ He) as [r Hr]. simpl in Hr.
      rewrite <- app_assoc in Hr. apply app_inv_head in Hr. subst q.
      replace (p ++ [k] ++ r) with ((p ++ [k]) ++ r) in He by by rewrite <- app_assoc.
      apply (IH _ _ Hc) in He. simpl. by rewrite Hc.
  - intros Hs. destruct q as [|k q]; simpl in Hs.
    + destruct (children t !! k') as [c|] eqn:Hc; [|by destruct Hs].
      apply list_elem_of_In, in_flat_map. exists k'. split.
      * apply list_elem_of_In, union_iter_elem.
        apply elem_of_union_l, contains_keys, contains_true. by eexists.
      * rewrite app_nil_r. left. reflexivity.
    + destruct (children t !! k) as [c|] eqn:Hc; [|by destruct Hs].
      apply list_elem_of_In, in_flat_map. exists k. split.
      * apply list_elem_of_In, union_iter_elem.
        apply elem_of_union_l, contains_keys, contains_true. by eexists.
      * right. apply list_elem_of_In. rewrite (getitem_Some _ _ _ Hc).
        replace (p ++ k :: q) with ((p ++ [k]) ++ q) by by rewrite <- app_assoc.
        by apply (IH _ _ Hc).
Qed.

(** A removed subtree is reported node by node. *)
Lemma removed_length (t : tree) :
  ∀ p, length (diff_entries o t empty_tree p) = tsize t.
Proof.
  induction t as [t IH] using tree_children_ind. intros p.
  rewrite removed_unfold, length_flat_map.
  destruct t as [m] eqn:Et.
  rewrite (tsize_enum m (union_iter o (keys (Dict m)) ∅)).
  - f_equal. apply map_ext_in. intros k Hk%list_elem_of_In%union_iter_elem.
    simpl. f_equal.
    assert (Hin : k ∈ keys (Dict m)) by set_solver.
    apply contains_keys, contains_true in Hin as [c Hc].
    rewrite (getitem_Some _ _ _ Hc). exact (IH _ _ Hc _).
  - apply union_iter_NoDup.
  - intros k. rewrite union_iter_elem. unfold keys. simpl. set_solver.
Qed.

(** No node is reported twice. *)
Lemma diff_entries_NoDup (A B : tree) : ∀ p, NoDup (diff_entries o A B p).
Proof.
  induction A, B as [A B IH] using tree_pair_ind. intros p.
  rewrite diff_entries_unfold. apply NoDup_flat_map.
  - apply union_iter_NoDup.
  - intros k Hk%union_iter_elem. rewrite entries_key_shape. simpl.
    assert (Hhead : ∀ m, Entry p m k ∉ diff_entries o (getitem A k) (getitem B k) (p ++ [k])).
    { intros m Hin. apply diff_entries_below in Hin as [r Hr]. simpl in Hr.
      apply (f_equal length) in Hr. rewrite !length_app in Hr. simpl in Hr. lia. }
    destruct (contains A k && negb (contains B k));
      [apply NoDup_cons; split; [apply Hhead|apply IH, Hk]|].
    destruct (contains B k && negb (contains A k));
      [apply NoDup_cons; split; [apply Hhead|apply IH, Hk]|].
    pose proof (IH k Hk (p ++ [k])) as Hnd.
    destruct (diff_entries o (getitem A k) (getitem B k) (p ++ [k]));
      [constructor|].
    apply NoDup_cons; split; [apply Hhead|exact Hnd].
  - intros x y e _ _ Hx Hy.
    apply entries_key_below in Hx, Hy. exact (prefix_snoc_inj _ _ _ _ Hx Hy).
Qed.

Lemma render_removed_block (sub : tree) (base : Z) (p : list string) (k : string) :
  map (render base) (Entry p Removed k :: diff_entries o sub empty_tree (p ++ [k]))
  = removed_line (base + Z.of_nat (length p)) k
    :: diff_trees o sub empty_tree (base + Z.of_nat (length p) + 1).
Proof.
  simpl. f_equal.
  replace (base + Z.of_nat (length p) + 1)%Z
    with (base + Z.of_nat (length (p ++ [k])))%Z by (rewrite length_app; simpl; lia).
  symmetry. apply diff_trees_render.
Qed.

Lemma render_header_block (co cn : tree) (base : Z) (p : list string) (k : string) :
  map (render base)
      match diff_entries o co cn (p ++ [k]) with
      | [] => []
      | cd => Entry p Header k :: cd
      end
  = match diff_trees o co cn (base + Z.of_nat (length p) + 1) with
    | [] => []
    | cd => header_line (base + Z.of_nat (length p)) k :: cd
    end.
Proof.
  replace (base + Z.of_nat (length p) + 1)%Z
    with (base + Z.of_nat (length (p ++ [k])))%Z by (rewrite length_app; simpl; lia).
  rewrite (diff_trees_render o co cn base (p ++ [k])).
  destruct (diff_entries o co cn (p ++ [k])); reflexivity.
Qed.

(** C1. A key present only in the old tree is reported, together with every
    node below it, as removed: its block in the report is the removed entry
    for the key followed by the report of its subtree against the empty tree
    one level deeper; the block has one entry per node (the key and each of
    its descendants), all marked removed, and no other entry of the report
    is about the key or a node below it. *)
Theorem removed_subtree_reported
    (old_tree new_tree sub : tree) (base : Z) (p : list string) (k : string) :
  children old_tree !! k = Some sub →
  children new_tree !! k = None →
  let d := (base + Z.of_nat (length p))%Z in
  let below := diff_entries o sub empty_tree (p ++ [k]) in
  ∃ before after,
    diff_entries o old_tree new_tree p = before ++ (Entry p Removed k :: below) ++ after
    ∧ (∀ e, e ∈ before ++ after → ¬ (p ++ [k]) `prefix_of` node_path e)
    ∧ diff_trees o old_tree new_tree d
      = map (render base) before
        ++ (removed_line d k :: diff_trees o sub empty_tree (d + 1))
        ++ map (render base) after
    ∧ length (Entry p Removed k :: below) = S (tsize sub)
    ∧ NoDup (Entry p Removed k :: below)
    ∧ (∀ e, e ∈ Entry p Removed k :: below → e_mark e = Removed)
    ∧ (∀ q k', Entry ((p ++ [k]) ++ q) Removed k' ∈ below
               ↔ is_Some (subtree sub (q ++ [k']))).
Proof.
  intros Hold Hnew. cbv zeta.
  set (below := diff_entries o sub empty_tree (p ++ [k])).
  assert (Hk : k ∈ keys old_tree ∪ keys new_tree).
  { apply elem_of_union_l, contains_keys, contains_true. by eexists. }
  destruct (diff_entries_split old_tree new_tree p k Hk) as (before & after & Heq & Hapart).
  assert (Hblock : entries_key (diff_entries o) old_tree new_tree p k
                   = Entry p Removed k :: below).
  { unfold entries_key.
    assert (contains old_tree k = true) as -> by (apply contains_true; by eexists).
    assert (contains new_tree k = false) as -> by by apply contains_false.
    simpl. by rewrite (getitem_Some _ _ _ Hold). }
  rewrite Hblock in Heq.
  exists before, after. split; [exact Heq|]. split; [exact Hapart|].
  split; [|split; [|split; [|split]]].
  - rewrite diff_trees_render, Heq, !map_app. unfold below.
    by rewrite render_removed_block.
  - simpl. f_equal. apply removed_length.
  - apply NoDup_cons. split; [|apply diff_entries_NoDup].
    intros Hin. apply diff_entries_below in Hin as [r Hr]. simpl in Hr.
    apply (f_equal length) in Hr. rewrite !length_app in Hr. simpl in Hr. lia.
  - intros e [->|He]%elem_of_cons; [reflexivity|]. by apply removed_marks in He.
  - intros q k'. apply removed_nodes.
Qed.

(** C2. For a key present in both trees the report holds either nothing (when
    the recursive comparison of the two subtrees is empty, in particular when
    the subtrees are identical) or the header line of the key immediately
    followed by the recursive report; no other entry is about the key or a
    node below it. *)
Theorem unchanged_subtree_elided
    (old_tree new_tree co cn : tree) (base : Z) (p : list string) (k : string) :
  children old_tree !! k = Some co →
  children new_tree !! k = Some cn →
  let d := (base + Z.of_nat (length p))%Z in
  let block := match diff_entries o co cn (p ++ [k]) with
               | [] => []
               | cd => Entry p Header k :: cd
               end in
  ∃ before after,
    diff_entries o old_tree new_tree p = before ++ block ++ after
    ∧ (∀ e, e ∈ before ++ after → ¬ (p ++ [k]) `prefix_of` node_path e)
    ∧ diff_trees o old_tree new_tree d
      = map (render base) before
        ++ match diff_trees o co cn (d + 1) with
           | [] => []
           | cd => header_line d k :: cd
           end
        ++ map (render base) after
    ∧ (co = cn →
       diff_trees o old_tree new_tree d
         = map (render base) before ++ map (render base) after
       ∧ ∀ e, e ∈ diff_entries o old_tree new_tree p →
              ¬ (p ++ [k]) `prefix_of` node_path e).
Proof.
  intros Hold Hnew. cbv zeta.
  set (d := (base + Z.of_nat (length p))%Z).
  set (block := match diff_entries o co cn (p ++ [k]) with
                | [] => []
                | cd => Entry p Header k :: cd
                end).
  assert (Hk : k ∈ keys old_tree ∪ keys new_tree).
  { apply elem_of_union_l, contains_keys, contains_true. by eexists. }
  destruct (diff_entries_split old_tree new_tree p k Hk) as (before & after & Heq & Hapart).
  assert (Hblock : entries_key (diff_entries o) old_tree new_tree p k = block).
  { unfold entries_key.
    assert (contains old_tree k = true) as -> by (apply contains_true; by eexists).
    assert (contains new_tree k = true) as -> by (apply contains_true; by eexists).
    simpl. rewrite (getitem_Some _ _ _ Hold), (getitem_Some _ _ _ Hnew).
    unfold block. by destruct (diff_entries o co cn (p ++ [k])). }
  rewrite Hblock in Heq.
  assert (Hstr : diff_trees o old_tree new_tree d
      = map (render base) before
        ++ match diff_trees o co cn (d + 1) with
           | [] => []
           | cd => header_line d k :: cd
           end
        ++ map (render base) after).
  { unfold d. rewrite diff_trees_render, Heq, !map_app.
    unfold block. by rewrite render_header_block. }
  exists before, after. split; [exact Heq|]. split; [exact Hapart|].
  split; [exact Hstr|].
  intros <-. split.
  - rewrite Hstr, diff_trees_refl. reflexivity.
  - intros e He. rewrite Heq in He. unfold block in He.
    rewrite diff_entries_same in He. simpl in He. by apply Hapart.
Qed.



(** C10. An empty report means that the two trees are the same nested
    mapping. *)
Theorem diff_trees_nil_eq (A B : tree) (d : Z) :
  diff_trees o A B d = [] → A = B.
Proof.
  revert d. induction A, B as [A B IH] using tree_pair_ind. intros d H.
  rewrite diff_trees_unfold in H.
  assert (Hk : ∀ k, children A !! k = children B !! k).
  { intros k.
    destruct (decide (k ∈ keys A ∪ keys B)) as [Hin|Hout].
    - assert (Hb : diff_key (diff_trees o) A B d k = []).
      { eapply flat_map_nil in H; [exact H|]. by apply union_iter_elem. }
      unfold diff_key in Hb.
      destruct (contains A k) eqn:Ea; destruct (contains B k) eqn:Eb;
        simpl in Hb; try discriminate.
      + apply contains_true in Ea as [a Ha]. apply contains_true in Eb as [b Hb'].
        rewrite Ha, Hb'. f_equal.
        destruct (diff_trees o (getitem A k) (getitem B k) (d + 1)) eqn:Hc;
          [|discriminate].
        apply IH in Hc; [|exact Hin].
        rewrite (getitem_Some _ _ _ Ha), (getitem_Some _ _ _ Hb') in Hc. exact Hc.
      + apply contains_false in Ea, Eb. by rewrite Ea, Eb.
    - apply not_elem_of_union in Hout as [Ha Hb].
      unfold keys in Ha, Hb. apply not_elem_of_dom in Ha, Hb. by rewrite Ha, Hb. }
  destruct A as [ma], B as [mb]. f_equal. apply map_eq. exact Hk.
Qed.

End DifferProps.

(** ** Python string facts *)

Module PyStrFacts.
Import PyStr.

Lemma rstrip_idem (s : string) : rstrip (rstrip s) = rstrip s.
Proof.
  induction s as [|c s IH]; [reflexivity|]. simpl.
  destruct (rstrip s) as [|c' r] eqn:E.
  - destruct (isspace c) eqn:Ec; [reflexivity|]. simpl. by rewrite Ec.
  - simpl. simpl in IH. by rewrite IH.
Qed.

Lemma lstrip_rstrip (s : string) : lstrip (rstrip s) = rstrip (lstrip s).
Proof.
  induction s as [|c s IH]; [reflexivity|]. simpl.
  destruct (rstrip s) as [|c' r] eqn:E.
  - destruct (isspace c) eqn:Ec; simpl.
    + by rewrite <- IH.
    + by rewrite E, !Ec.
  - simpl. destruct (isspace c) eqn:Ec.
    + by rewrite <- IH.
    + simpl. by rewrite E.
Qed.

Lemma strip_rstrip (s : string) : strip (rstrip s) = strip s.
Proof. unfold strip. by rewrite lstrip_rstrip, rstrip_idem. Qed.

Lemma length_lstrip (s : string) :
  String.length s = (leading_spaces s + String.length (lstrip s))%nat.
Proof.
  induction s as [|c s IH]; [reflexivity|]. simpl.
  destruct (isspace c); simpl; by rewrite ?IH.
Qed.

End PyStrFacts.

(** ** Lines *)

(** The loop's test singles out the lines whose trimmed content is empty or
    a lone "!". *)
Lemma skipped_spec (line : string) :
  skipped line = true ↔ PyStr.strip line = "" ∨ PyStr.strip line = "!".
Proof.
  unfold skipped.
  rewrite PyStrFacts.strip_rstrip, PyStrFacts.lstrip_rstrip.
  fold (PyStr.strip line).
  rewrite orb_true_iff, String.eqb_eq.
  destruct (PyStr.strip line); simpl; intuition congruence.
Qed.

Lemma cmd_of_strip (line : string) : cmd_of line = PyStr.strip line.
Proof. apply PyStrFacts.strip_rstrip. Qed.

(** The indentation of a line is its number of leading whitespace
    characters. *)
Lemma indent_of_leading (line : string) :
  indent_of line = Z.of_nat (PyStr.leading_spaces line).
Proof.
  unfold indent_of, PyStr.len. rewrite (PyStrFacts.length_lstrip line) at 1. lia.
Qed.

Lemma indent_of_nonneg (line : string) : (0 ≤ indent_of line)%Z.
Proof. rewrite indent_of_leading. lia. Qed.

(** ** The run of the parser *)

Lemma run_app (st : builder) (l1 l2 : list string) :
  run st (l1 ++ l2) = match run st l1 with
                      | Some st' => run st' l2
                      | None => None
                      end.
Proof.
  revert st. induction l1 as [|l l1 IH]; intros st; simpl; [reflexivity|].
  destruct (step st l); [apply IH|reflexivity].
Qed.

Lemma run_snoc (st : builder) (ls : list string) (l : string) :
  run st (ls ++ [l]) = match run st ls with
                       | Some st' => step st' l
                       | None => None
                       end.
Proof.
  rewrite run_app. destruct (run st ls) as [st'|]; [|reflexivity].
  simpl. by destruct (step st' l).
Qed.

Lemma step_skipped (st : builder) (line : string) :
  skipped line = true → step st line = Some st.
Proof. intros H. unfold step. by rewrite H. Qed.

Lemma emitted_app (l1 l2 : list string) :
  emitted (l1 ++ l2) = (emitted l1 + emitted l2)%nat.
Proof.
  induction l1 as [|l l1 IH]; simpl; [reflexivity|].
  destruct (skipped l); simpl; by rewrite IH.
Qed.

Lemma emitted_rev (ls : list string) : emitted (rev ls) = emitted ls.
Proof.
  induction ls as [|l ls IH]; simpl; [reflexivity|].
  rewrite emitted_app, IH. simpl. destruct (skipped l); lia.
Qed.

(** *** The stack mirrors the enclosing lines *)

Lemma pop_while_enclosing (back : list string) :
  ∀ ind ind', (0 ≤ ind)%Z → (ind ≤ ind')%Z →
    pop_while ind (map scope_entry (enclosing back ind') ++ [((-1)%Z, root)])
    = map scope_entry (enclosing back ind) ++ [((-1)%Z, root)].
Proof.
  induction back as [|l before IH]; intros ind ind' H0 Hle; simpl.
  - destruct (Z.leb_spec ind (-1)); [lia|reflexivity].
  - destruct (skipped l); simpl; [by apply IH|].
    destruct (Z.ltb_spec (indent_of l) ind'); destruct (Z.ltb_spec (indent_of l) ind);
      simpl; try lia.
    + destruct (Z.leb_spec ind (indent_of l)); [lia|reflexivity].
    + destruct (Z.leb_spec ind (indent_of l)); [|lia]. by apply IH.
    + by apply IH.
Qed.

Lemma pop_while_open_scopes (back : list string) (ind : Z) :
  (0 ≤ ind)%Z →
  pop_while ind (map scope_entry (open_scopes back) ++ [((-1)%Z, root)])
  = map scope_entry (enclosing back ind) ++ [((-1)%Z, root)].
Proof.
  intros H0. induction back as [|l before IH]; simpl.
  - destruct (Z.leb_spec ind (-1)); [lia|reflexivity].
  - destruct (skipped l); simpl; [exact IH|].
    destruct (Z.ltb_spec (indent_of l) ind); destruct (Z.leb_spec ind (indent_of l));
      try lia; [reflexivity|].
    apply pop_while_enclosing; lia.
Qed.

Lemma pop_while_twice (back : list string) (ind : Z) :
  (0 ≤ ind)%Z →
  pop_while ind (pop_while ind (map scope_entry (open_scopes back) ++ [((-1)%Z, root)]))
  = map scope_entry (enclosing back ind) ++ [((-1)%Z, root)].
Proof.
  intros H0. rewrite pop_while_open_scopes by done.
  apply pop_while_enclosing; lia.
Qed.

(** What the stack holds and how many dictionaries exist after any input. *)
Lemma run_stack (ls : list string) :
  ∃ st, run init ls = Some st
        ∧ stack st = map scope_entry (open_scopes (rev ls)) ++ [((-1)%Z, root)]
        ∧ length (heap st) = S (emitted ls).
Proof.
  induction ls as [|l ls IH] using rev_ind.
  - exists init. by repeat split.
  - destruct IH as (st & Hrun & Hstk & Hlen).
    rewrite run_snoc, Hrun, rev_app_distr. simpl. unfold step.
    rewrite emitted_app. simpl.
    destruct (skipped l) eqn:Hs.
    + exists st. repeat split; [exact Hstk|lia].
    + rewrite Hstk, pop_while_twice by apply indent_of_nonneg.
      destruct (map scope_entry (enclosing (rev ls) (indent_of l)) ++ [((-1)%Z, root)])
        as [|[i parent] stk] eqn:E.
      { by destruct (map scope_entry (enclosing (rev ls) (indent_of l))). }
      eexists. split; [reflexivity|]. simpl. split.
      * unfold scope_entry at 1. simpl. unfold node_after.
        by rewrite emitted_rev, Hlen, E.
      * unfold setitem. rewrite length_alter, length_app, Hlen. simpl. lia.
Qed.

(** *** The store *)

Lemma enclosing_bound (back : list string) :
  ∀ ind x, x ∈ enclosing back ind → (node_after x.2 ≤ emitted back)%nat.
Proof.
  unfold node_after.
  induction back as [|l before IH]; intros ind x Hx; simpl in *.
  - by apply elem_of_nil in Hx.
  - destruct (skipped l) eqn:Hs; simpl in Hx; [by eapply IH|].
    destruct (indent_of l <? ind)%Z.
    + apply elem_of_cons in Hx as [->|Hx]; simpl; [lia|].
      apply IH in Hx. lia.
    + apply IH in Hx. lia.
Qed.

Lemma scope_addr_enclosing (back : list string) (ind : Z) :
  (scope_addr (enclosing back ind) ≤ emitted back)%nat.
Proof.
  destruct (enclosing back ind) as [|x rest] eqn:E; simpl; [unfold root; lia|].
  apply (enclosing_bound back ind). rewrite E. left.
Qed.

Lemma enclosing_descending (back : list string) :
  ∀ ind, descending (enclosing back ind).
Proof.
  induction back as [|l before IH]; intros ind; simpl; [exact I|].
  destruct (negb (skipped l) && (indent_of l <? ind)%Z); [|apply IH].
  simpl. split; [|apply IH].
  pose proof (scope_addr_enclosing before (indent_of l)). unfold node_after. lia.
Qed.

Lemma enclosing_suffix (back : list string) :
  ∀ ind ind', (ind ≤ ind')%Z → enclosing back ind `suffix_of` enclosing back ind'.
Proof.
  induction back as [|l before IH]; intros ind ind' Hle; simpl; [reflexivity|].
  destruct (skipped l); simpl; [by apply IH|].
  destruct (Z.ltb_spec (indent_of l) ind'); destruct (Z.ltb_spec (indent_of l) ind);
    try lia.
  - reflexivity.
  - apply suffix_cons_r. apply IH. lia.
  - by apply IH.
Qed.

Lemma enclosing_open_scopes (back : list string) (ind : Z) :
  enclosing back ind `suffix_of` open_scopes back.
Proof.
  induction back as [|l before IH]; simpl; [reflexivity|].
  destruct (skipped l); simpl; [exact IH|].
  destruct (Z.ltb_spec (indent_of l) ind); [reflexivity|].
  apply suffix_cons_r. by apply enclosing_suffix.
Qed.

Lemma linked_suffix (h : list (gmap string nat)) (c1 c2 : list (string * list string)) :
  c1 `suffix_of` c2 → linked h c2 → linked h c1.
Proof.
  intros [pre ->]. induction pre as [|x pre IH]; simpl; [done|].
  intros [_ H]. by apply IH.
Qed.

(** Writing into a dictionary created later than every scope of a chain
    leaves the chain's links alone. *)
Lemma linked_frame (h h' : list (gmap string nat)) (a : nat)
    (chain : list (string * list string)) :
  (∀ b, (b < a)%nat → h' !! b = h !! b) →
  descending chain → (scope_addr chain < a)%nat →
  linked h chain → linked h' chain.
Proof.
  intros Hsame. induction chain as [|x rest IH]; simpl; [done|].
  intros [Hlt Hdesc] Ha [Hlink Hrest]. split.
  - rewrite Hsame by lia. exact Hlink.
  - apply IH; [exact Hdesc|lia|exact Hrest].
Qed.

Lemma lookup_setitem_eq (h : list (gmap string nat)) (a : nat) (k : string) (v : nat)
    (d : gmap string nat) :
  h !! a = Some d → setitem h a k v !! a = Some (<[k:=v]> d).
Proof. intros H. unfold setitem. by rewrite list_lookup_alter_eq, H. Qed.

Lemma lookup_setitem_ne (h : list (gmap string nat)) (a b : nat) (k : string) (v : nat) :
  a ≠ b → setitem h a k v !! b = h !! b.
Proof. intros H. unfold setitem. by rewrite list_lookup_alter_ne. Qed.

Lemma store_ordered_step (h : list (gmap string nat)) (parent : nat) (cmd : string) :
  store_ordered h → (parent < length h)%nat →
  store_ordered (setitem (h ++ [∅]) parent cmd (length h)).
Proof.
  intros Hord Hp a d k b Ha Hk.
  unfold setitem in *. rewrite length_alter, length_app. simpl.
  destruct (decide (a = parent)) as [->|Hne].
  - rewrite list_lookup_alter_eq, lookup_app_l in Ha by done.
    destruct (h !! parent) as [d0|] eqn:Hd0; [|done]. simpl in Ha.
    injection Ha as <-.
    destruct (decide (k = cmd)) as [->|Hk'].
    + rewrite lookup_insert_eq in Hk. injection Hk as <-. lia.
    + rewrite lookup_insert_ne in Hk by done.
      specialize (Hord _ _ _ _ Hd0 Hk). lia.
  - rewrite list_lookup_alter_ne in Ha by done.
    destruct (decide (a < length h)%nat).
    + rewrite lookup_app_l in Ha by done. specialize (Hord _ _ _ _ Ha Hk). lia.
    + rewrite lookup_app_r in Ha by lia.
      destruct (a - length h)%nat; simpl in Ha; [|done].
      injection Ha as <-. by rewrite lookup_empty in Hk.
Qed.

(** The store after any input: children follow their parents, and the open
    scopes are linked from the root. *)
Lemma run_store (ls : list string) (st : builder) :
  run init ls = Some st →
  store_ordered (heap st) ∧ linked (heap st) (open_scopes (rev ls)).
Proof.
  revert st. induction ls as [|l ls IH] using rev_ind; intros st' Hrun'.
  - injection Hrun' as <-. split; [|exact I].
    intros a d k b Ha Hk. destruct a; simpl in Ha; [|done].
    injection Ha as <-. by rewrite lookup_empty in Hk.
  - destruct (run_stack ls) as (st & Hrun & Hstk & Hlen).
    destruct (IH st Hrun) as [Hord Hlink].
    rewrite run_snoc, Hrun in Hrun'. rewrite rev_app_distr. simpl.
    unfold step in Hrun'.
    destruct (skipped l) eqn:Hs.
    { injection Hrun' as <-. by split. }
    rewrite Hstk, pop_while_twice in Hrun' by apply indent_of_nonneg.
    pose proof (scope_addr_enclosing (rev ls) (indent_of l)) as Hbound.
    rewrite emitted_rev in Hbound.
    pose proof (enclosing_descending (rev ls) (indent_of l)) as Hdesc.
    pose proof (linked_suffix _ _ _ (enclosing_open_scopes (rev ls) (indent_of l)) Hlink)
      as Hlink'.
    set (chain := enclosing (rev ls) (indent_of l)) in *.
    assert (Hparent : ∃ i stk, map scope_entry chain ++ [((-1)%Z, root)]
                               = (i, scope_addr chain) :: stk).
    { destruct chain as [|x rest]; simpl; eauto. }
    destruct Hparent as (i & stk & Hstk').
    rewrite Hstk' in Hrun'. simpl in Hrun'. injection Hrun' as <-. simpl.
    assert (Hp : (scope_addr chain < length (heap st))%nat) by lia.
    split; [by apply store_ordered_step|].
    destruct (lookup_lt_is_Some_2 (heap st) _ Hp) as [d Hd].
    split.
    + simpl. erewrite lookup_setitem_eq; [|by rewrite lookup_app_l].
      rewrite lookup_insert_eq. unfold node_after. by rewrite emitted_rev, Hlen.
    + destruct chain as [|x rest]; [exact I|].
      simpl in Hdesc, Hlink' |- *. destruct Hdesc as [Hlt Hdesc], Hlink' as [Hl1 Hl2].
      assert (Hsame : ∀ b, (b < node_after x.2)%nat →
        setitem (heap st ++ [∅]) (node_after x.2) (cmd_of l) (length (heap st)) !! b
        = heap st !! b).
      { intros b Hb. rewrite lookup_setitem_ne by lia.
        simpl in Hp. apply lookup_app_l. lia. }
      split.
      * rewrite Hsame by exact Hlt. exact Hl1.
      * by apply (linked_frame (heap st) _ (node_after x.2)).
Qed.

(** *** Reading trees back from the store *)

Lemma reify_stable (h : list (gmap string nat)) :
  store_ordered h →
  ∀ f f' a, (length h ≤ a + f)%nat → (length h ≤ a + f')%nat →
    reify f h a = reify f' h a.
Proof.
  intros Hord.
  assert (Hout : ∀ f a, (length h ≤ a)%nat → reify f h a = empty_tree).
  { intros [|f] a Ha; [reflexivity|]. simpl.
    rewrite (lookup_ge_None_2 h a) by lia. simpl. by rewrite fmap_empty. }
  induction f as [|f IH]; intros f' a Hf Hf'.
  - rewrite !Hout by lia. reflexivity.
  - destruct f' as [|f']; [rewrite !Hout by lia; reflexivity|].
    simpl. f_equal. destruct (h !! a) as [d|] eqn:Hd; simpl; [|reflexivity].
    apply map_fmap_ext. intros k b Hk.
    pose proof (Hord _ _ _ _ Hd Hk). apply IH; lia.
Qed.

Lemma tree_at_unfold (h : list (gmap string nat)) (a : nat) :
  store_ordered h → tree_at h a = Dict (tree_at h <$> default ∅ (h !! a)).
Proof.
  intros Hord. unfold tree_at.
  rewrite (reify_stable h Hord (length h) (S (length h)) a) by lia. reflexivity.
Qed.

Lemma tree_at_empty (h : list (gmap string nat)) (a : nat) :
  store_ordered h → h !! a = Some ∅ → tree_at h a = empty_tree.
Proof.
  intros Hord Ha. rewrite tree_at_unfold, Ha by done. simpl. by rewrite fmap_empty.
Qed.

Lemma walk_app (h : list (gmap string nat)) (a : nat) (p1 p2 : list string) :
  walk h a (p1 ++ p2) = match walk h a p1 with
                        | Some b => walk h b p2
                        | None => None
                        end.
Proof.
  revert a. induction p1 as [|k p1 IH]; intros a; simpl; [reflexivity|].
  destruct (h !! a) as [d|]; [|reflexivity].
  destruct (d !! k) as [b|]; [apply IH|reflexivity].
Qed.

(** A chain of keys that leads somewhere in the store leads to the same
    place in the tree read back from it. *)
Lemma subtree_walk (h : list (gmap string nat)) :
  store_ordered h →
  ∀ path a b, walk h a path = Some b →
    subtree (tree_at h a) path = Some (tree_at h b).
Proof.
  intros Hord. induction path as [|k path IH]; intros a b Hw; simpl in *.
  - by injection Hw as <-.
  - rewrite tree_at_unfold by done. simpl.
    destruct (h !! a) as [d|]; [|done]. simpl.
    rewrite lookup_fmap. destruct (d !! k) as [c|]; [|done]. simpl.
    by apply IH.
Qed.

Lemma scope_path_cons (x : string * list string) (chain : list (string * list string)) :
  scope_path (x :: chain) = scope_path chain ++ [cmd_of x.1].
Proof. unfold scope_path. simpl. by rewrite map_app. Qed.

Lemma walk_chain (h : list (gmap string nat)) (chain : list (string * list string)) :
  linked h chain → walk h root (scope_path chain) = Some (scope_addr chain).
Proof.
  induction chain as [|x rest IH]; [reflexivity|].
  intros [Hl Hrest]. rewrite scope_path_cons, walk_app, (IH Hrest). exact Hl.
Qed.

(** *** The enclosing lines are the nearest less indented ones *)

Lemma enclosing_indents (back : list string) :
  ∀ ind x, x ∈ enclosing back ind →
    skipped x.1 = false ∧ (indent_of x.1 < ind)%Z.
Proof.
  induction back as [|l before IH]; intros ind x Hx; simpl in Hx.
  - by apply elem_of_nil in Hx.
  - destruct (skipped l) eqn:Hs; simpl in Hx; [by apply IH|].
    destruct (Z.ltb_spec (indent_of l) ind); [|by apply IH].
    apply elem_of_cons in Hx as [->|Hx]; [by split|].
    apply IH in Hx as [? ?]. split; [done|lia].
Qed.

Lemma enclosing_skip (between back : list string) (ind : Z) :
  (∀ x, x ∈ between → skipped x = true ∨ (ind ≤ indent_of x)%Z) →
  enclosing (between ++ back) ind = enclosing back ind.
Proof.
  induction between as [|l between IH]; intros H; simpl; [reflexivity|].
  assert (Hl : negb (skipped l) && (indent_of l <? ind)%Z = false).
  { destruct (H l) as [->|Hge]; [left|reflexivity|].
    apply andb_false_iff. right. apply Z.ltb_ge. exact Hge. }
  rewrite Hl. apply IH. intros x Hx. apply H. by right.
Qed.

Lemma enclosing_nearest (earlier between : list string) (p : string) (ind : Z) :
  skipped p = false → (indent_of p < ind)%Z →
  (∀ x, x ∈ between → skipped x = true ∨ (ind ≤ indent_of x)%Z) →
  enclosing (rev (earlier ++ p :: between)) ind
  = (p, rev earlier) :: enclosing (rev earlier) (indent_of p).
Proof.
  intros Hs Hlt Hbetween.
  rewrite rev_app_distr. simpl. rewrite <- app_assoc. simpl.
  rewrite enclosing_skip.
  - simpl. rewrite Hs. simpl.
    destruct (Z.ltb_spec (indent_of p) ind); [reflexivity|lia].
  - intros x Hx. apply Hbetween. apply list_elem_of_In. apply list_elem_of_In in Hx.
    by apply in_rev.
Qed.

Lemma enclosing_none (pre : list string) (ind : Z) :
  (∀ x, x ∈ pre → skipped x = true ∨ (ind ≤ indent_of x)%Z) →
  enclosing (rev pre) ind = [].
Proof.
  intros H. rewrite <- (app_nil_r (rev pre)). rewrite enclosing_skip; [reflexivity|].
  intros x Hx. apply H. apply list_elem_of_In. apply list_elem_of_In in Hx.
  by apply in_rev.
Qed.

Lemma resolved_parent_spec (pre : list string) (line : string) :
  resolved_parent pre line = Some (scope_addr (enclosing (rev pre) (indent_of line))).
Proof.
  unfold resolved_parent.
  destruct (run_stack pre) as (st & -> & Hstk & _).
  rewrite Hstk, pop_while_twice by apply indent_of_nonneg.
  by destruct (enclosing (rev pre) (indent_of line)).
Qed.

Lemma run_fresh_empty (pre : list string) (line : string) (st : builder) :
  skipped line = false → run init (pre ++ [line]) = Some st →
  heap st !! node_after pre = Some ∅.
Proof.
  intros Hs Hrun. destruct (run_stack pre) as (st0 & Hrun0 & Hstk & Hlen).
  rewrite run_snoc, Hrun0 in Hrun. unfold step in Hrun. rewrite Hs in Hrun.
  rewrite Hstk, pop_while_twice in Hrun by apply indent_of_nonneg.
  pose proof (scope_addr_enclosing (rev pre) (indent_of line)) as Hb.
  rewrite emitted_rev in Hb.
  destruct (enclosing (rev pre) (indent_of line)) as [|x rest]; simpl in Hrun, Hb;
    injection Hrun as <-; simpl; unfold node_after in *; rewrite <- Hlen.
  - rewrite lookup_setitem_ne by (unfold root; lia).
    rewrite lookup_app_r by lia. by rewrite Nat.sub_diag.
  - rewrite lookup_setitem_ne by lia.
    rewrite lookup_app_r by lia. by rewrite Nat.sub_diag.
Qed.

(** *** The sentinel stays on the stack *)

Lemma pop_while_last (ind : Z) (stk : list (Z * nat)) :
  (0 ≤ ind)%Z → last stk = Some ((-1)%Z, root) →
  last (pop_while ind stk) = Some ((-1)%Z, root).
Proof.
  intros H0. induction stk as [|[i a] stk IH]; [done|]. intros Hlast. simpl.
  destruct (Z.leb_spec ind i); [|exact Hlast].
  apply IH. destruct stk as [|y stk]; [|exact Hlast].
  simpl in Hlast. injection Hlast as -> _. lia.
Qed.

Lemma step_total (st : builder) (line : string) :
  last (stack st) = Some ((-1)%Z, root) →
  ∃ st', step st line = Some st' ∧ last (stack st') = Some ((-1)%Z, root).
Proof.
  intros Hlast. unfold step. destruct (skipped line); [by exists st|].
  pose proof (pop_while_last _ _ (indent_of_nonneg line)
                (pop_while_last _ _ (indent_of_nonneg line) Hlast)) as Hl.
  destruct (pop_while (indent_of line) (pop_while (indent_of line) (stack st)))
    as [|[i parent] stk]; [done|].
  eexists. split; [reflexivity|]. exact Hl.
Qed.

Lemma run_skip_inserted (ls ls' : list string) :
  skip_inserted ls ls' → ∀ st, run st ls' = run st ls.
Proof.
  induction 1 as [|l ls ls' _ IH|s ls ls' Hs _ IH]; intros st; simpl.
  - reflexivity.
  - destruct (step st l); [apply IH|reflexivity].
  - rewrite step_skipped by by apply skipped_spec. apply IH.
Qed.

(** ** Properties of build_tree *)

(** C3. The node of a line that is not skipped is entered in the dictionary
    of the nearest earlier line that is not skipped and is indented strictly
    less (the root when there is none); going on in the same way from that
    line gives all its ancestors, so that the node sits, in the store and in
    the tree, at the end of the chain of their command texts and its depth
    is their number.  The stack after the line holds exactly these
    ancestors.  Indentation is the number of leading whitespace
    characters. *)
Theorem parser_nesting (pre : list string) (line : string) :
  skipped line = false →
  let chain := enclosing (rev pre) (indent_of line) in
  let node := node_after pre in
  ∃ st t,
    run init (pre ++ [line]) = Some st
    ∧ build_tree (pre ++ [line]) = Some t
    ∧ resolved_parent pre line = Some (scope_addr chain)
    ∧ stack st = (indent_of line, node) :: map scope_entry chain ++ [((-1)%Z, root)]
    ∧ walk (heap st) (scope_addr chain) [cmd_of line] = Some node
    ∧ walk (heap st) root (scope_path chain ++ [cmd_of line]) = Some node
    ∧ subtree t (scope_path chain ++ [cmd_of line]) = Some empty_tree
    ∧ length (scope_path chain) = length chain
    ∧ (∀ x, x ∈ chain → skipped x.1 = false ∧ (indent_of x.1 < indent_of line)%Z)
    ∧ (∀ earlier p between,
         pre = earlier ++ p :: between →
         skipped p = false → (indent_of p < indent_of line)%Z →
         (∀ x, x ∈ between → skipped x = true ∨ (indent_of line ≤ indent_of x)%Z) →
         chain = (p, rev earlier) :: enclosing (rev earlier) (indent_of p)
         ∧ scope_addr chain = node_after earlier)
    ∧ ((∀ x, x ∈ pre → skipped x = true ∨ (indent_of line ≤ indent_of x)%Z) →
       chain = [] ∧ scope_addr chain = root)
    ∧ (∀ x, indent_of x = Z.of_nat (PyStr.leading_spaces x)).
Proof.
  intros Hs. cbv zeta.
  set (chain := enclosing (rev pre) (indent_of line)).
  destruct (run_stack (pre ++ [line])) as (st & Hrun & Hstk & Hlen).
  destruct (run_store _ _ Hrun) as [Hord Hlink].
  rewrite rev_app_distr in Hstk, Hlink. simpl in Hstk, Hlink.
  rewrite Hs in Hstk, Hlink. fold chain in Hstk, Hlink.
  simpl in Hlink. destruct Hlink as [Hl1 Hl2].
  unfold scope_entry at 1 in Hstk. simpl in Hstk.
  assert (Hnode : node_after (rev pre) = node_after pre).
  { unfold node_after. by rewrite emitted_rev. }
  rewrite Hnode in Hstk, Hl1.
  assert (Hwalk : walk (heap st) root (scope_path chain ++ [cmd_of line])
                  = Some (node_after pre)).
  { by rewrite walk_app, (walk_chain _ _ Hl2). }
  exists st, (tree_at (heap st) root).
  split; [exact Hrun|]. split; [unfold build_tree; by rewrite Hrun|].
  split; [apply resolved_parent_spec|]. split; [exact Hstk|].
  split; [exact Hl1|]. split; [exact Hwalk|].
  split.
  { rewrite (subtree_walk _ Hord _ _ _ Hwalk). f_equal.
    apply tree_at_empty; [exact Hord|]. by apply (run_fresh_empty pre line). }
  split; [unfold scope_path; by rewrite length_map, length_rev|].
  split; [apply enclosing_indents|].
  split.
  - intros earlier p between -> Hp Hlt Hbetween. unfold chain.
    rewrite (enclosing_nearest earlier between p) by done.
    split; [reflexivity|]. simpl. unfold node_after. by rewrite emitted_rev.
  - split; [|apply indent_of_leading].
    intros Hnone. unfold chain. by rewrite enclosing_none.
Qed.

(** C7. Lines whose trimmed content is empty or a lone "!" change nothing:
    such a line leaves the loop state, stack included, as it is, and an
    input with any number of them inserted anywhere gives the same tree. *)
Theorem skip_line_invariance (ls ls' : list string) :
  skip_inserted ls ls' →
  build_tree ls' = build_tree ls
  ∧ run init ls' = run init ls
  ∧ (∀ st s, PyStr.strip s = "" ∨ PyStr.strip s = "!" → step st s = Some st).
Proof.
  intros H. pose proof (run_skip_inserted _ _ H init) as Hrun.
  split; [unfold build_tree; by rewrite Hrun|]. split; [exact Hrun|].
  intros st s Hs. apply step_skipped. by apply skipped_spec.
Qed.

(** *** diff_trees and the recursion limit *)

Lemma height_attained (t : tree) :
  (0 < height t)%nat → ∃ k c, children t !! k = Some c ∧ height t = S (height c).
Proof.
  destruct t as [m]; simpl children. rewrite height_unfold.
  apply (map_fold_weak_ind
    (fun r (m : gmap string tree) =>
       (0 < r)%nat → ∃ k c, m !! k = Some c ∧ r = S (height c))).
  - lia.
  - intros i x m' r Hi IH _.
    destruct (decide (r ≤ S (height x))%nat) as [Hle|Hgt].
    + exists i, x. rewrite lookup_insert_eq. split; [reflexivity|lia].
    + destruct IH as (k & c & Hk & Hr); [lia|].
      exists k, c. split; [|lia].
      rewrite lookup_insert_ne; [exact Hk|]. intros ->. congruence.
Qed.

Lemma for_keys_all (body : string → option (list string))
    (f : string → list string) (ks : list string) (acc : list string) :
  (∀ k, k ∈ ks → body k = Some (f k)) →
  for_keys body ks acc = Some (acc ++ flat_map f ks).
Proof.
  revert acc. induction ks as [|k ks IH]; intros acc H; simpl.
  - by rewrite app_nil_r.
  - rewrite (H k) by left. rewrite IH by (intros k' Hk'; apply H; by right).
    by rewrite <- app_assoc.
Qed.

Lemma for_keys_raises (body : string → option (list string))
    (ks : list string) (acc : list string) (k : string) :
  k ∈ ks → body k = None → for_keys body ks acc = None.
Proof.
  revert acc. induction ks as [|k0 ks IH]; intros acc Hk Hb; [by inversion Hk|].
  simpl. destruct (body k0) as [added|] eqn:E; [|reflexivity].
  apply IH; [|exact Hb].
  apply elem_of_cons in Hk as [->|Hk]; [congruence|exact Hk].
Qed.

(** The call returns exactly when the deeper of the two trees has fewer
    levels than there are frames left, and then it returns the report. *)
Lemma diff_trees_call_spec (o : SetOrder) (frames : nat) :
  ∀ old_tree new_tree indent,
    diff_trees_call o frames old_tree new_tree indent
    = if decide (Nat.max (height old_tree) (height new_tree) < frames)%nat
      then Some (diff_trees o old_tree new_tree indent) else None.
Proof.
  induction frames as [|n IH]; intros A B d.
  { rewrite decide_False by lia. reflexivity. }
  simpl diff_trees_call.
  destruct (decide (Nat.max (height A) (height B) < S n)%nat) as [Hlt|Hge].
  - rewrite diff_trees_unfold.
    rewrite (for_keys_all _ (diff_key (diff_trees o) A B d)); [reflexivity|].
    intros k Hk. unfold call_key, diff_key.
    rewrite !IH, height_empty.
    apply union_iter_elem, elem_of_union in Hk.
    destruct (contains A k) eqn:EA; destruct (contains B k) eqn:EB; simpl.
    + apply contains_true in EA as [ca Hca]. apply contains_true in EB as [cb Hcb].
      pose proof (height_child _ _ _ Hca). pose proof (height_child _ _ _ Hcb).
      rewrite (getitem_Some _ _ _ Hca), (getitem_Some _ _ _ Hcb).
      rewrite decide_True by lia. reflexivity.
    + apply contains_true in EA as [ca Hca].
      pose proof (height_child _ _ _ Hca). rewrite (getitem_Some _ _ _ Hca).
      rewrite decide_True by lia. reflexivity.
    + apply contains_true in EB as [cb Hcb].
      pose proof (height_child _ _ _ Hcb). rewrite (getitem_Some _ _ _ Hcb).
      rewrite decide_True by lia. reflexivity.
    + destruct Hk as [Hk|Hk]; apply contains_keys in Hk; congruence.
  - assert (Hdeep : ∃ k, k ∈ union_iter o (keys A) (keys B)
                         ∧ (n ≤ Nat.max (height (getitem A k)) (height (getitem B k)))%nat
                         ∧ (contains A k = false → n ≤ height (getitem B k))%nat
                         ∧ (contains B k = false → n ≤ height (getitem A k))%nat).
    { destruct (decide (height B ≤ height A)%nat) as [HBA|HAB].
      - destruct (height_attained A) as (k & c & Hk & Hh); [lia|].
        exists k. rewrite (getitem_Some _ _ _ Hk).
        split; [apply union_iter_elem, elem_of_union_l, contains_keys, contains_true;
                by eexists|].
        split; [lia|]. split; [|lia].
        intros Hc. apply contains_false in Hc. congruence.
      - destruct (height_attained B) as (k & c & Hk & Hh); [lia|].
        exists k. rewrite (getitem_Some _ _ _ Hk).
        split; [apply union_iter_elem, elem_of_union_r, contains_keys, contains_true;
                by eexists|].
        split; [lia|]. split; [lia|].
        intros Hc. apply contains_false in Hc. congruence. }
    destruct Hdeep as (k & Hk & Hmax & HnA & HnB).
    apply (for_keys_raises _ _ _ k Hk).
    unfold call_key. rewrite !IH, height_empty.
    destruct (contains A k) eqn:EA; destruct (contains B k) eqn:EB; simpl.
    + rewrite decide_False by lia. reflexivity.
    + specialize (HnB eq_refl). rewrite decide_False by lia. reflexivity.
    + specialize (HnA eq_refl). rewrite decide_False by lia. reflexivity.
    + specialize (HnA eq_refl). apply contains_false in EA.
      rewrite (getitem_None _ _ EA), height_empty in Hmax.
      rewrite decide_False by lia. reflexivity.
Qed.

(** C8. [build_tree] is total: it never reads an empty stack, because the
    sentinel entry stays at the bottom of the stack through every line, so
    every input yields a tree, read back from the store in full (every
    dictionary with all its children).  [diff_trees] is total only up to the
    recursion limit: a call returns exactly when the deeper of the two trees
    has fewer levels than the interpreter has frames left, it raises
    [RecursionError] otherwise, and the report it returns satisfies the
    equation of the loop. *)
Theorem core_total_within_limit :
  (∀ st line, last (stack st) = Some ((-1)%Z, root) →
     ∃ st', step st line = Some st' ∧ last (stack st') = Some ((-1)%Z, root))
  ∧ (∀ config_lines, ∃ st,
       run init config_lines = Some st
       ∧ last (stack st) = Some ((-1)%Z, root)
       ∧ build_tree config_lines = Some (tree_at (heap st) root)
       ∧ ∀ a, tree_at (heap st) a
              = Dict (tree_at (heap st) <$> default ∅ (heap st !! a)))
  ∧ (∀ o frames old_tree new_tree indent,
       diff_trees_call o frames old_tree new_tree indent
       = if decide (Nat.max (height old_tree) (height new_tree) < frames)%nat
         then Some (diff_trees o old_tree new_tree indent) else None)
  ∧ (∀ o old_tree new_tree indent,
       diff_trees o old_tree new_tree indent
       = flat_map (diff_key (diff_trees o) old_tree new_tree indent)
                  (union_iter o (keys old_tree) (keys new_tree))).
Proof.
  split; [apply step_total|]. split.
  - intros ls. destruct (run_stack ls) as (st & Hrun & Hstk & _).
    destruct (run_store _ _ Hrun) as [Hord _].
    exists st. split; [exact Hrun|]. split; [|split].
    + rewrite Hstk. apply last_snoc.
    + unfold build_tree. by rewrite Hrun.
    + intros a. by apply tree_at_unfold.
  - split; [intros o frames; apply diff_trees_call_spec|].
    intros o. apply diff_trees_unfold.
Qed.

(** ** The scenario *)

Lemma enum_one (l : list string) (x : string) :
  NoDup l → (∀ k, k ∈ l ↔ k = x) → l = [x].
Proof.
  intros Hnd Hl.
  assert (Hp : l ≡ₚ [x]).
  { apply NoDup_Permutation; [done|apply NoDup_singleton|].
    intros k. rewrite Hl. set_solver. }
  symmetry. by apply Permutation_singleton_l.
Qed.

Lemma enum_two (l : list string) (x y : string) :
  x ≠ y → NoDup l → (∀ k, k ∈ l ↔ k = x ∨ k = y) → l = [x; y] ∨ l = [y; x].
Proof.
  intros Hxy Hnd Hl.
  assert (Hp : [x; y] ≡ₚ l).
  { apply NoDup_Permutation; [|done|].
    - apply NoDup_cons. split; [set_solver|apply NoDup_singleton].
    - intros k. rewrite Hl. set_solver. }
  by apply Permutation_length_2_inv in Hp.
Qed.

Lemma build_old_lines : build_tree old_lines = Some old_scenario_tree.
Proof. vm_compute. reflexivity. Qed.

Lemma build_new_lines : build_tree new_lines = Some new_scenario_tree.
Proof. vm_compute. reflexivity. Qed.

Lemma scenario_reports (o : SetOrder) :
  diff_trees o old_scenario_tree new_scenario_tree 0
    = ["interface eth0"; "  - ip address 1.2.3.4"; "  + ip address 5.6.7.8"]
  ∨ diff_trees o old_scenario_tree new_scenario_tree 0
    = ["interface eth0"; "  + ip address 5.6.7.8"; "  - ip address 1.2.3.4"].
Proof.
  set (cA := Dict {[ "ip address 1.2.3.4" := empty_tree ]}).
  set (cB := Dict {[ "ip address 5.6.7.8" := empty_tree ]}).
  assert (Htop : union_iter o (keys old_scenario_tree) (keys new_scenario_tree)
                 = ["interface eth0"]).
  { apply enum_one; [apply union_iter_NoDup|].
    intros k. rewrite union_iter_elem. unfold keys. simpl.
    rewrite !dom_singleton_L. set_solver. }
  assert (Hsub : union_iter o (keys cA) (keys cB)
                 = ["ip address 1.2.3.4"; "ip address 5.6.7.8"]
               ∨ union_iter o (keys cA) (keys cB)
                 = ["ip address 5.6.7.8"; "ip address 1.2.3.4"]).
  { apply enum_two; [done|apply union_iter_NoDup|].
    intros k. rewrite union_iter_elem. unfold keys. simpl.
    rewrite !dom_singleton_L. set_solver. }
  assert (Hleaf : ∀ d, diff_trees o empty_tree empty_tree d = []).
  { intros d. apply diff_trees_rec_empty. }
  assert (Hrem : diff_key (diff_trees o) cA cB 1 "ip address 1.2.3.4"
                 = ["  - ip address 1.2.3.4"]).
  { unfold diff_key.
    change (contains cA "ip address 1.2.3.4") with true.
    change (contains cB "ip address 1.2.3.4") with false.
    change (getitem cA "ip address 1.2.3.4") with empty_tree.
    simpl. by rewrite Hleaf. }
  assert (Hadd : diff_key (diff_trees o) cA cB 1 "ip address 5.6.7.8"
                 = ["  + ip address 5.6.7.8"]).
  { unfold diff_key.
    change (contains cA "ip address 5.6.7.8") with false.
    change (contains cB "ip address 5.6.7.8") with true.
    change (getitem cB "ip address 5.6.7.8") with empty_tree.
    simpl. by rewrite Hleaf. }
  assert (Hkey : ∀ cd, diff_trees o cA cB 1 = cd → cd ≠ [] →
            diff_trees o old_scenario_tree new_scenario_tree 0
            = "interface eth0" :: cd).
  { intros cd Hcd Hne. rewrite diff_trees_unfold, Htop. simpl.
    unfold diff_key.
    change (contains old_scenario_tree "interface eth0") with true.
    change (contains new_scenario_tree "interface eth0") with true.
    change (getitem old_scenario_tree "interface eth0") with cA.
    change (getitem new_scenario_tree "interface eth0") with cB.
    cbv [andb negb]. change (0 + 1)%Z with 1%Z.
    rewrite Hcd. destruct cd; [done|]. by rewrite app_nil_r. }
  destruct Hsub as [Hsub|Hsub].
  - left. apply Hkey; [|done].
    rewrite diff_trees_unfold, Hsub. simpl. by rewrite Hrem, Hadd.
  - right. apply Hkey; [|done].
    rewrite diff_trees_unfold, Hsub. simpl. by rewrite Hrem, Hadd.
Qed.

(** C9 as stated fails: with the keys of the new tree visited first the two
    address lines come out in the other order. *)
Lemma scenario_order_counterexample :
  build_tree old_lines = Some old_scenario_tree
  ∧ build_tree new_lines = Some new_scenario_tree
  ∧ diff_trees right_first old_scenario_tree new_scenario_tree 0
    = ["interface eth0"; "  + ip address 5.6.7.8"; "  - ip address 1.2.3.4"]
  ∧ diff_trees right_first old_scenario_tree new_scenario_tree 0
    ≠ ["interface eth0"; "  - ip address 1.2.3.4"; "  + ip address 5.6.7.8"].
Proof.
  split; [apply build_old_lines|]. split; [apply build_new_lines|].
  assert (H : diff_trees right_first old_scenario_tree new_scenario_tree 0
    = ["interface eth0"; "  + ip address 5.6.7.8"; "  - ip address 1.2.3.4"]).
  { vm_compute. reflexivity. }
  split; [exact H|]. rewrite H. discriminate.
Qed.

(** C9 (amended). The scenario yields the header line "interface eth0"
    followed by the removed and the added address line, in the order in
    which the union of the keys is iterated; the removed line comes first
    when the keys of the old tree are visited first. *)
Theorem scenario_report :
  build_tree old_lines = Some old_scenario_tree
  ∧ build_tree new_lines = Some new_scenario_tree
  ∧ (∀ o : SetOrder,
       diff_trees o old_scenario_tree new_scenario_tree 0
         = ["interface eth0"; "  - ip address 1.2.3.4"; "  + ip address 5.6.7.8"]
       ∨ diff_trees o old_scenario_tree new_scenario_tree 0
         = ["interface eth0"; "  + ip address 5.6.7.8"; "  - ip address 1.2.3.4"])
  ∧ diff_trees left_first old_scenario_tree new_scenario_tree 0
    = ["interface eth0"; "  - ip address 1.2.3.4"; "  + ip address 5.6.7.8"].
Proof.
  split; [apply build_old_lines|]. split; [apply build_new_lines|].
  split; [apply scenario_reports|]. vm_compute. reflexivity.
Qed.


(** ** Building below a node *)

Lemma shift_empty (n : nat) : shift n ∅ = ∅.
Proof. unfold shift. apply fmap_empty. Qed.

Lemma shift_insert (n : nat) (d : gmap string nat) (k : string) (v : nat) :
  shift n (<[k:=v]> d) = <[k:=(n + v)%nat]> (shift n d).
Proof. unfold shift. apply fmap_insert. Qed.

Lemma pop_while_below (n : nat) (ind i : Z) (base body : list (Z * nat)) :
  (0 ≤ i)%Z → (ind < i)%Z → Forall (fun e => (ind < e.1)%Z) body →
  ∃ body',
    pop_while i (body ++ [((-1)%Z, root)]) = body' ++ [((-1)%Z, root)]
    ∧ pop_while i (map (shift_entry n) body ++ (ind, n) :: base)
      = map (shift_entry n) body' ++ (ind, n) :: base
    ∧ Forall (fun e => (ind < e.1)%Z) body'.
Proof.
  intros H0 Hlt. induction body as [|[j a] body IH]; intros Hall; simpl.
  - exists []. simpl.
    destruct (Z.leb_spec i (-1)); [lia|]. destruct (Z.leb_spec i ind); [lia|].
    split; [reflexivity|]. split; [reflexivity|]. constructor.
  - apply Forall_cons in Hall as [Hj Hall]. simpl in Hj.
    destruct (Z.leb_spec i j).
    + by apply IH.
    + exists ((j, a) :: body).
      split; [reflexivity|]. split; [reflexivity|]. by apply Forall_cons.
Qed.

Lemma step_below (pfx : list (gmap string nat)) (ind : Z) (base : list (Z * nat))
    (st st' : builder) (line : string) :
  skipped line = true ∨ (ind < indent_of line)%Z →
  below pfx ind base st st' →
  ∃ st1 st1', step st line = Some st1 ∧ step st' line = Some st1'
              ∧ below pfx ind base st1 st1'.
Proof.
  intros Hline Hsim. unfold step.
  destruct (skipped line) eqn:Hs; [by exists st, st'|].
  destruct Hline as [?|Hlt]; [done|].
  destruct Hsim as (body & Hstk' & Hstk & Hall & Hheap).
  pose proof (indent_of_nonneg line) as H0.
  destruct (pop_while_below (length pfx) ind _ base body H0 Hlt Hall)
    as (body1 & Hp1' & Hp1 & Hall1).
  destruct (pop_while_below (length pfx) ind _ base body1 H0 Hlt Hall1)
    as (body2 & Hp2' & Hp2 & Hall2).
  rewrite Hstk, Hstk', Hp1, Hp1', Hp2, Hp2'.
  assert (Hhead : ∃ i i' p rest rest',
    body2 ++ [((-1)%Z, root)] = (i', p) :: rest'
    ∧ map (shift_entry (length pfx)) body2 ++ (ind, length pfx) :: base
      = (i, (length pfx + p)%nat) :: rest).
  { destruct body2 as [|[j a] body2]; simpl.
    - exists ind, (-1)%Z, root, base, []. unfold root. by rewrite Nat.add_0_r.
    - exists j, j, a. eexists _, _. by split. }
  destruct Hhead as (i & i' & p & rest & rest' & E' & E).
  pose proof E as Ekeep. pose proof E' as Ekeep'.
  rewrite E, E'. simpl.
  eexists _, _. split; [reflexivity|]. split; [reflexivity|].
  exists ((indent_of line, length (heap st')) :: body2). simpl.
  split; [by rewrite <- Ekeep'|]. split.
  { rewrite <- Ekeep. unfold shift_entry at 1. simpl.
    by rewrite Hheap, length_app, length_map. }
  split; [by apply Forall_cons|].
  rewrite Hheap. unfold setitem.
  rewrite <- app_assoc.
  rewrite length_app, length_map.
  rewrite alter_app_r. f_equal.
  change (map (shift (length pfx)) (heap st') ++ [∅])
    with (map (shift (length pfx)) (heap st') ++ [∅ : gmap string nat]).
  rewrite <- (shift_empty (length pfx)) at 1.
  change [shift (length pfx) ∅] with (map (shift (length pfx)) [∅]).
  rewrite <- map_app.
  change (map (shift (length pfx))) with (fmap (M:=list) (shift (length pfx))).
  symmetry. apply list_fmap_alter.
  apply Forall_forall. intros d _. apply shift_insert.
Qed.

Lemma run_below (pfx : list (gmap string nat)) (ind : Z) (base : list (Z * nat))
    (sub : list string) :
  Forall (fun x => skipped x = true ∨ (ind < indent_of x)%Z) sub →
  ∀ st st', below pfx ind base st st' →
    ∃ st1 st1', run st sub = Some st1 ∧ run st' sub = Some st1'
                ∧ below pfx ind base st1 st1'.
Proof.
  induction 1 as [|l sub Hl _ IH]; intros st st' Hsim; simpl.
  - by exists st, st'.
  - destruct (step_below _ _ _ _ _ _ Hl Hsim) as (st1 & st1' & -> & -> & Hsim1).
    by apply IH.
Qed.

Lemma reify_region (pfx extra h' : list (gmap string nat)) :
  store_ordered h' →
  ∀ fuel a, (a < length h')%nat →
    reify fuel (pfx ++ map (shift (length pfx)) h' ++ extra) (length pfx + a)
    = reify fuel h' a.
Proof.
  intros Hord. induction fuel as [|fuel IH]; intros a Ha; [reflexivity|].
  simpl. f_equal.
  rewrite lookup_app_r by lia.
  replace (length pfx + a - length pfx)%nat with a by lia.
  rewrite lookup_app_l by by rewrite length_map.
  change (map (shift (length pfx)) h') with (shift (length pfx) <$> h').
  rewrite list_lookup_fmap.
  destruct (lookup_lt_is_Some_2 h' a Ha) as [d Hd]. rewrite Hd. simpl.
  unfold shift. rewrite <- map_fmap_compose.
  apply map_fmap_ext. intros k b Hk. simpl.
  apply IH. pose proof (Hord _ _ _ _ Hd Hk). lia.
Qed.

Lemma tree_at_region (pfx extra h' : list (gmap string nat)) :
  store_ordered h' → (0 < length h')%nat →
  tree_at (pfx ++ map (shift (length pfx)) h' ++ extra) (length pfx)
  = tree_at h' root.
Proof.
  intros Hord Hpos. unfold tree_at.
  rewrite <- (Nat.add_0_r (length pfx)) at 3.
  rewrite reify_region by done.
  apply reify_stable; [done| |lia].
  rewrite !length_app, length_map. unfold root. lia.
Qed.

Lemma pop_while_Forall (P : Z * nat → Prop) (i : Z) (stk : list (Z * nat)) :
  Forall P stk → Forall P (pop_while i stk).
Proof.
  induction 1 as [|[j a] stk Hx Hall IH]; simpl; [constructor|].
  destruct (i <=? j)%Z; [exact IH|by constructor].
Qed.

Lemma pop_while_app_all (i : Z) (l1 l2 : list (Z * nat)) :
  Forall (fun e => (i ≤ e.1)%Z) l1 → pop_while i (l1 ++ l2) = pop_while i l2.
Proof.
  induction 1 as [|[j a] l1 Hj _ IH]; simpl; [reflexivity|].
  simpl in Hj. destruct (Z.leb_spec i j); [exact IH|lia].
Qed.

Lemma setitem_frozen (pfx region extra : list (gmap string nat)) (parent : nat)
    (cmd : string) (v : nat) :
  (parent < length pfx)%nat ∨ (length pfx + length region ≤ parent)%nat →
  ∃ pfx' extra',
    length pfx' = length pfx
    ∧ setitem ((pfx ++ region ++ extra) ++ [∅]) parent cmd v
      = pfx' ++ region ++ extra'.
Proof.
  intros [Hlt|Hge]; unfold setitem.
  - exists (alter (insert cmd v) parent pfx), (extra ++ [∅]).
    split; [apply length_alter|].
    rewrite <- !app_assoc. by rewrite alter_app_l.
  - exists pfx, (alter (insert cmd v) (parent - length pfx - length region)
                       (extra ++ [∅])).
    split; [reflexivity|].
    rewrite <- !app_assoc.
    replace parent
      with (length pfx + (length region + (parent - length pfx - length region)))%nat
      at 1 by lia.
    by rewrite !alter_app_r.
Qed.

Lemma step_frozen (n : nat) (region : list (gmap string nat)) (st st1 : builder)
    (line : string) :
  frozen n region st → step st line = Some st1 → frozen n region st1.
Proof.
  intros (pfx & extra & Hn & Hheap & Hstk) Hstep. unfold step in Hstep.
  destruct (skipped line); [injection Hstep as <-; by exists pfx, extra|].
  pose proof (pop_while_Forall _ (indent_of line) _
                (pop_while_Forall _ (indent_of line) _ Hstk)) as Hpop.
  destruct (pop_while (indent_of line) (pop_while (indent_of line) (stack st)))
    as [|[i parent] stk]; [done|].
  simpl in Hstep. injection Hstep as <-. simpl.
  pose proof (Forall_inv Hpop) as Hp. simpl in Hp.
  rewrite Hheap.
  destruct (setitem_frozen pfx region extra parent (cmd_of line)
              (length (pfx ++ region ++ extra))) as (pfx' & extra' & Hlen & ->).
  { rewrite Hn. exact Hp. }
  exists pfx', extra'. split; [lia|]. split; [reflexivity|].
  constructor; [|exact Hpop].
  right. simpl. rewrite !length_app. lia.
Qed.

Lemma run_frozen (n : nat) (region : list (gmap string nat)) (ls : list string) :
  ∀ st st1, frozen n region st → run st ls = Some st1 → frozen n region st1.
Proof.
  induction ls as [|l ls IH]; intros st st1 Hf Hrun; simpl in Hrun.
  - by injection Hrun as <-.
  - destruct (step st l) as [st0|] eqn:Hstep; [|done].
    eapply IH; [|exact Hrun]. by eapply step_frozen.
Qed.

(** The first line that is not nested below the node closes its scope. *)
Lemma step_leave (pfx : list (gmap string nat)) (ind : Z) (base : list (Z * nat))
    (st st' st1 : builder) (line : string) :
  below pfx ind base st st' →
  Forall (fun e => (e.2 < length pfx)%nat) base →
  skipped line = false → (indent_of line ≤ ind)%Z →
  step st line = Some st1 →
  frozen (length pfx) (map (shift (length pfx)) (heap st')) st1.
Proof.
  intros (body & Hstk' & Hstk & Hall & Hheap) Hbase Hs Hle Hstep.
  unfold step in Hstep. rewrite Hs, Hstk in Hstep.
  rewrite (pop_while_app_all (indent_of line)) in Hstep.
  2:{ apply Forall_fmap. eapply Forall_impl; [exact Hall|].
      intros [j a] Hj. simpl in *. lia. }
  simpl in Hstep. destruct (Z.leb_spec (indent_of line) ind); [|lia].
  assert (Hpop : Forall (fun e => (e.2 < length pfx)%nat)
                   (pop_while (indent_of line) (pop_while (indent_of line) base))).
  { by do 2 apply pop_while_Forall. }
  destruct (pop_while (indent_of line) (pop_while (indent_of line) base))
    as [|[i parent] stk]; [done|].
  simpl in Hstep. injection Hstep as <-. simpl.
  pose proof (Forall_inv Hpop) as Hp. simpl in Hp.
  rewrite Hheap.
  destruct (setitem_frozen pfx (map (shift (length pfx)) (heap st')) [] parent
              (cmd_of line) (length (pfx ++ map (shift (length pfx)) (heap st'))))
    as (pfx' & extra' & Hlen & Heq); [by left|].
  rewrite app_nil_r in Heq. rewrite Heq.
  exists pfx', extra'. split; [exact Hlen|]. split; [reflexivity|].
  constructor.
  - right. simpl. rewrite !length_app. lia.
  - eapply Forall_impl; [exact Hpop|]. intros e He. by left.
Qed.

(** *** Entries that later lines leave alone *)

Lemma walk_setitem (h : list (gmap string nat)) (parent fresh : nat) (cmd : string) :
  ∀ path a b, cmd ∉ path → walk h a path = Some b →
    walk (setitem (h ++ [∅]) parent cmd fresh) a path = Some b.
Proof.
  induction path as [|k path IH]; intros a b Hcmd Hw; simpl in *; [done|].
  apply not_elem_of_cons in Hcmd as [Hk Hcmd].
  destruct (h !! a) as [d|] eqn:Hd; [|done].
  destruct (d !! k) as [c|] eqn:Hc; [|done].
  assert (Ha : (h ++ [∅]) !! a = Some d).
  { rewrite lookup_app_l; [done|]. by eapply lookup_lt_Some. }
  destruct (decide (parent = a)) as [->|Hne].
  - rewrite (lookup_setitem_eq _ _ _ _ _ Ha), lookup_insert_ne, Hc by done.
    by apply IH.
  - rewrite lookup_setitem_ne, Ha, Hc by done. by apply IH.
Qed.

Lemma run_walk (path : list string) (a b : nat) (ls : list string) :
  Forall (fun x => skipped x = true ∨ cmd_of x ∉ path) ls →
  ∀ st st1, run st ls = Some st1 → walk (heap st) a path = Some b →
    walk (heap st1) a path = Some b.
Proof.
  induction 1 as [|l ls Hl _ IH]; intros st st1 Hrun Hw; simpl in Hrun.
  - by injection Hrun as <-.
  - destruct (step st l) as [st0|] eqn:Hstep; [|done].
    apply (IH st0 st1 Hrun). unfold step in Hstep.
    destruct (skipped l); [by injection Hstep as <-|].
    destruct Hl as [?|Hl]; [done|].
    destruct (pop_while (indent_of l) (pop_while (indent_of l) (stack st)))
      as [|[i parent] stk]; [done|].
    simpl in Hstep. injection Hstep as <-. simpl. by apply walk_setitem.
Qed.

(** *** The children of a node are what its nested lines build *)

(** The loop state right after a line that is not skipped. *)
Lemma line_state (pre : list string) (line : string) :
  skipped line = false →
  let chain := enclosing (rev pre) (indent_of line) in
  ∃ st pfx,
    run init (pre ++ [line]) = Some st
    ∧ stack st = (indent_of line, node_after pre)
                 :: map scope_entry chain ++ [((-1)%Z, root)]
    ∧ heap st = pfx ++ [∅] ∧ length pfx = node_after pre
    ∧ linked (heap st) chain
    ∧ walk (heap st) (scope_addr chain) [cmd_of line] = Some (node_after pre).
Proof.
  intros Hs. cbv zeta.
  destruct (run_stack (pre ++ [line])) as (st & Hrun & Hstk & Hlen).
  destruct (run_store _ _ Hrun) as [Hord Hlink].
  rewrite rev_app_distr in Hstk, Hlink. simpl in Hstk, Hlink.
  rewrite Hs in Hstk, Hlink. simpl in Hlink. destruct Hlink as [Hl1 Hl2].
  unfold scope_entry at 1 in Hstk. simpl in Hstk.
  assert (Hnode : node_after (rev pre) = node_after pre).
  { unfold node_after. by rewrite emitted_rev. }
  rewrite Hnode in Hstk, Hl1.
  assert (Hlen' : length (heap st) = S (node_after pre)).
  { rewrite Hlen, emitted_app. simpl. rewrite Hs. unfold node_after. lia. }
  exists st, (take (node_after pre) (heap st)).
  split; [exact Hrun|]. split; [exact Hstk|]. split.
  - rewrite <- (take_drop (node_after pre) (heap st)) at 1. f_equal.
    pose proof (run_fresh_empty pre line st Hs Hrun) as He.
    apply list_eq. intros [|j].
    + by rewrite lookup_drop, Nat.add_0_r.
    + rewrite lookup_drop. simpl. apply lookup_ge_None_2. rewrite Hlen'.
      unfold node_after. lia.
  - split; [rewrite length_take; lia|]. by split.
Qed.

Lemma children_built_below (L0 sub post : list string) (l2 : string) :
  skipped l2 = false →
  Forall (fun x => skipped x = true ∨ (indent_of l2 < indent_of x)%Z) sub →
  match post with
  | [] => True
  | p :: _ => skipped p = false ∧ (indent_of p ≤ indent_of l2)%Z
  end →
  let chain := enclosing (rev L0) (indent_of l2) in
  ∃ st st',
    run init (L0 ++ l2 :: sub ++ post) = Some st
    ∧ run init sub = Some st'
    ∧ store_ordered (heap st)
    ∧ tree_at (heap st) (node_after L0) = tree_at (heap st') root
    ∧ (Forall (fun x => skipped x = true
                        ∨ cmd_of x ∉ scope_path chain ++ [cmd_of l2]) post →
       walk (heap st) (scope_addr chain) [cmd_of l2] = Some (node_after L0)
       ∧ walk (heap st) root (scope_path chain ++ [cmd_of l2])
         = Some (node_after L0)).
Proof.
  intros Hs Hsub Hpost. cbv zeta.
  set (chain := enclosing (rev L0) (indent_of l2)).
  destruct (line_state L0 l2 Hs) as (st2 & pfx & Hrun2 & Hstk2 & Hheap2 & Hlen & Hlink & Hw).
  fold chain in Hstk2, Hlink, Hw.
  set (base := map scope_entry chain ++ [((-1)%Z, root)]) in *.
  assert (Hbelow : below pfx (indent_of l2) base st2 init).
  { exists []. simpl. rewrite Hlen. repeat split; [done|constructor|].
    by rewrite shift_empty. }
  destruct (run_below _ _ _ _ Hsub _ _ Hbelow) as (st1 & st1' & Hrun1 & Hrun1' & Hbelow1).
  destruct (run_stack (L0 ++ l2 :: sub ++ post)) as (st & Hrun & _ & _).
  destruct (run_store _ _ Hrun) as [Hord _].
  destruct (run_store _ _ Hrun1') as [Hord' _].
  assert (Hpos : (0 < length (heap st1'))%nat).
  { destruct (run_stack sub) as (s0 & Hs0 & _ & Hl0).
    rewrite Hrun1' in Hs0. injection Hs0 as <-. lia. }
  assert (Hrunp : run st1 post = Some st).
  { replace (L0 ++ l2 :: sub ++ post) with ((L0 ++ [l2]) ++ sub ++ post) in Hrun
      by (rewrite <- app_assoc; reflexivity).
    rewrite run_app, Hrun2, run_app, Hrun1 in Hrun. exact Hrun. }
  assert (Hbase : Forall (fun e : Z * nat => (e.2 < length pfx)%nat) base).
  { unfold base. apply Forall_app. split.
    - apply Forall_fmap, Forall_forall. intros x Hx. simpl.
      pose proof (enclosing_bound _ _ _ Hx) as Hb. rewrite emitted_rev in Hb.
      rewrite Hlen. unfold node_after in *. lia.
    - constructor; [|constructor]. simpl. rewrite Hlen. unfold root, node_after. lia. }
  exists st, st1'. split; [exact Hrun|]. split; [exact Hrun1'|].
  split; [exact Hord|]. split.
  - destruct Hbelow1 as (body & Hstk1' & Hstk1 & Hall & Hheap1).
    destruct post as [|p post'].
    + simpl in Hrunp. injection Hrunp as <-.
      rewrite Hheap1, <- Hlen.
      rewrite <- (app_nil_r (map (shift (length pfx)) (heap st1'))).
      by apply tree_at_region.
    + destruct Hpost as [Hp Hle]. simpl in Hrunp.
      destruct (step st1 p) as [st3|] eqn:Hstep; [|done].
      assert (Hf3 : frozen (length pfx) (map (shift (length pfx)) (heap st1')) st3).
      { eapply (step_leave pfx (indent_of l2) base st1 st1'); eauto.
        by exists body. }
      destruct (run_frozen _ _ _ _ _ Hf3 Hrunp) as (pfx' & extra & Hlen' & Hheap & _).
      rewrite Hheap, <- Hlen, <- Hlen'. by apply tree_at_region.
  - intros Hkeys.
    destruct Hbelow1 as (body & Hstk1' & Hstk1 & Hall & Hheap1).
    assert (Hsame : ∀ b, (b < node_after L0)%nat → heap st1 !! b = heap st2 !! b).
    { intros b Hb. rewrite Hheap1, Hheap2, !lookup_app_l by lia. reflexivity. }
    pose proof (scope_addr_enclosing (rev L0) (indent_of l2)) as Hbound.
    rewrite emitted_rev in Hbound. fold chain in Hbound.
    assert (Hlt : (scope_addr chain < node_after L0)%nat)
      by (unfold node_after; lia).
    assert (Hlink1 : linked (heap st1) chain).
    { apply (linked_frame (heap st2) _ (node_after L0)); try done.
      apply enclosing_descending. }
    assert (Hw1 : walk (heap st1) (scope_addr chain) [cmd_of l2]
                  = Some (node_after L0)).
    { simpl in Hw |- *. by rewrite Hsame. }
    assert (Hw1' : walk (heap st1) root (scope_path chain ++ [cmd_of l2])
                   = Some (node_after L0)).
    { by rewrite walk_app, (walk_chain _ _ Hlink1). }
    split.
    + eapply run_walk; [|exact Hrunp|exact Hw1].
      eapply Forall_impl; [exact Hkeys|]. intros x [?|Hx]; [by left|right].
      intros Hin. apply Hx. apply elem_of_app. right. exact Hin.
    + eapply run_walk; [exact Hkeys|exact Hrunp|exact Hw1'].
Qed.

(** C4. Two lines that are not skipped, with the same trimmed text, the same
    indentation and the same resolved parent: the second replaces the entry
    the first made in the parent, so that the parent holds one node for the
    text, and the children of that node are exactly what the lines nested
    below the second occurrence build, whatever was nested below the first.
    In the tree returned the node is found under its ancestors as long as no
    later line writes one of the keys on that path again. *)
Theorem duplicate_sibling_collapse (pre mid sub post : list string) (l1 l2 : string) :
  skipped l1 = false → skipped l2 = false →
  cmd_of l1 = cmd_of l2 → indent_of l1 = indent_of l2 →
  resolved_parent pre l1 = resolved_parent (pre ++ l1 :: mid) l2 →
  Forall (fun x => skipped x = true ∨ (indent_of l2 < indent_of x)%Z) sub →
  match post with
  | [] => True
  | p :: _ => skipped p = false ∧ (indent_of p ≤ indent_of l2)%Z
  end →
  let first := node_after pre in
  let second := node_after (pre ++ l1 :: mid) in
  let path := scope_path (enclosing (rev (pre ++ l1 :: mid)) (indent_of l2))
              ++ [cmd_of l2] in
  ∃ parent st1 st2 st t_sub,
    resolved_parent pre l1 = Some parent
    ∧ run init (pre ++ [l1]) = Some st1
    ∧ walk (heap st1) parent [cmd_of l1] = Some first
    ∧ run init (pre ++ l1 :: mid ++ [l2]) = Some st2
    ∧ walk (heap st2) parent [cmd_of l1] = Some second
    ∧ first ≠ second
    ∧ build_tree sub = Some t_sub
    ∧ run init (pre ++ l1 :: mid ++ l2 :: sub ++ post) = Some st
    ∧ tree_at (heap st) second = t_sub
    ∧ (Forall (fun x => skipped x = true ∨ cmd_of x ∉ path) post →
       walk (heap st) parent [cmd_of l1] = Some second
       ∧ ∃ t, build_tree (pre ++ l1 :: mid ++ l2 :: sub ++ post) = Some t
              ∧ subtree t path = Some t_sub).
Proof.
  intros Hs1 Hs2 Hcmd _ Hparent Hsub Hpost. cbv zeta.
  rewrite !resolved_parent_spec in Hparent. injection Hparent as Hparent.
  set (L0 := pre ++ l1 :: mid) in *.
  destruct (line_state pre l1 Hs1) as (st1 & _ & Hrun1 & _ & _ & _ & _ & Hw1).
  destruct (line_state L0 l2 Hs2) as (st2 & _ & Hrun2 & _ & _ & _ & _ & Hw2).
  destruct (children_built_below L0 sub post l2 Hs2 Hsub Hpost)
    as (st & st' & Hrun & Hrun' & Hord & Htree & Hwalk).
  assert (Happ : ∀ rest, L0 ++ rest = pre ++ l1 :: mid ++ rest).
  { intros rest. unfold L0. by rewrite <- app_assoc. }
  rewrite Happ in Hrun2, Hrun.
  rewrite <- Hparent, <- Hcmd in Hw2.
  exists (scope_addr (enclosing (rev pre) (indent_of l1))), st1, st2, st,
         (tree_at (heap st') root).
  split; [apply resolved_parent_spec|]. split; [exact Hrun1|].
  split; [exact Hw1|]. split; [exact Hrun2|]. split; [exact Hw2|].
  split.
  { unfold node_after, L0. rewrite emitted_app. simpl. rewrite Hs1. lia. }
  split; [unfold build_tree; by rewrite Hrun'|]. split; [exact Hrun|].
  split; [exact Htree|].
  intros Hkeys. destruct (Hwalk Hkeys) as [Hwa Hwb].
  split; [by rewrite Hparent, Hcmd|].
  exists (tree_at (heap st) root). split; [unfold build_tree; by rewrite Hrun|].
  rewrite (subtree_walk _ Hord _ _ _ Hwb). f_equal. exact Htree.
Qed.

(** ** The theorems at concrete inputs *)


Lemma removed_subtree_reported_witness :
  children old_scenario_tree !! "interface eth0" = Some eth0_old
  ∧ children empty_tree !! "interface eth0" = None
  ∧ ∃ before after,
      diff_entries canonical_order old_scenario_tree empty_tree []
        = before
          ++ (Entry [] Removed "interface eth0"
              :: diff_entries canonical_order eth0_old empty_tree
                   ([] ++ ["interface eth0"]))
          ++ after
      ∧ (∀ e, e ∈ before ++ after →
              ¬ ([] ++ ["interface eth0"]) `prefix_of` node_path e)
      ∧ diff_trees canonical_order old_scenario_tree empty_tree
          (0 + Z.of_nat (length ([] : list string)))
        = map (render 0) before
          ++ (removed_line (0 + Z.of_nat (length ([] : list string))) "interface eth0"
              :: diff_trees canonical_order eth0_old empty_tree
                   (0 + Z.of_nat (length ([] : list string)) + 1))
          ++ map (render 0) after
      ∧ length (Entry [] Removed "interface eth0"
                :: diff_entries canonical_order eth0_old empty_tree
                     ([] ++ ["interface eth0"]))
        = S (tsize eth0_old)
      ∧ NoDup (Entry [] Removed "interface eth0"
               :: diff_entries canonical_order eth0_old empty_tree
                    ([] ++ ["interface eth0"]))
      ∧ (∀ e, e ∈ Entry [] Removed "interface eth0"
                  :: diff_entries canonical_order eth0_old empty_tree
                       ([] ++ ["interface eth0"]) →
              e_mark e = Removed)
      ∧ (∀ q k', Entry (([] ++ ["interface eth0"]) ++ q) Removed k'
                   ∈ diff_entries canonical_order eth0_old empty_tree
                       ([] ++ ["interface eth0"])
                 ↔ is_Some (subtree eth0_old (q ++ [k']))).
Proof.
  split; [reflexivity|]. split; [reflexivity|].
  exact (removed_subtree_reported canonical_order old_scenario_tree empty_tree
           eth0_old 0 [] "interface eth0" eq_refl eq_refl).
Defined.

Lemma unchanged_subtree_elided_witness :
  children old_scenario_tree !! "interface eth0" = Some eth0_old
  ∧ children new_scenario_tree !! "interface eth0" = Some eth0_new
  ∧ ∃ before after,
      diff_entries canonical_order old_scenario_tree new_scenario_tree []
        = before
          ++ match diff_entries canonical_order eth0_old eth0_new
                   ([] ++ ["interface eth0"]) with
             | [] => []
             | cd => Entry [] Header "interface eth0" :: cd
             end
          ++ after
      ∧ (∀ e, e ∈ before ++ after →
              ¬ ([] ++ ["interface eth0"]) `prefix_of` node_path e)
      ∧ diff_trees canonical_order old_scenario_tree new_scenario_tree
          (0 + Z.of_nat (length ([] : list string)))
        = map (render 0) before
          ++ match diff_trees canonical_order eth0_old eth0_new
                   (0 + Z.of_nat (length ([] : list string)) + 1) with
             | [] => []
             | cd => header_line (0 + Z.of_nat (length ([] : list string)))
                       "interface eth0" :: cd
             end
          ++ map (render 0) after
      ∧ (eth0_old = eth0_new →
         diff_trees canonical_order old_scenario_tree new_scenario_tree
           (0 + Z.of_nat (length ([] : list string)))
           = map (render 0) before ++ map (render 0) after
         ∧ ∀ e, e ∈ diff_entries canonical_order old_scenario_tree
                      new_scenario_tree [] →
                ¬ ([] ++ ["interface eth0"]) `prefix_of` node_path e).
Proof.
  split; [reflexivity|]. split; [reflexivity|].
  exact (unchanged_subtree_elided canonical_order old_scenario_tree
           new_scenario_tree eth0_old eth0_new 0 [] "interface eth0"
           eq_refl eq_refl).
Defined.

Lemma diff_trees_nil_eq_witness :
  diff_trees canonical_order ab_tree ba_tree 0 = [] ∧ ab_tree = ba_tree.
Proof.
  assert (H : diff_trees canonical_order ab_tree ba_tree 0 = [])
    by (vm_compute; reflexivity).
  split; [exact H|]. exact (diff_trees_nil_eq canonical_order ab_tree ba_tree 0 H).
Defined.

Lemma skip_line_invariance_witness :
  skip_inserted ["a"; " b"] ["!"; "a"; "   "; " b"; "  ! "]
  ∧ build_tree ["!"; "a"; "   "; " b"; "  ! "] = build_tree ["a"; " b"]
  ∧ run init ["!"; "a"; "   "; " b"; "  ! "] = run init ["a"; " b"]
  ∧ (∀ st s, PyStr.strip s = "" ∨ PyStr.strip s = "!" → step st s = Some st).
Proof.
  assert (H : skip_inserted ["a"; " b"] ["!"; "a"; "   "; " b"; "  ! "]).
  { apply skip_inserted_add; [right; reflexivity|].
    apply skip_inserted_keep.
    apply skip_inserted_add; [left; reflexivity|].
    apply skip_inserted_keep.
    apply skip_inserted_add; [right; reflexivity|].
    apply skip_inserted_nil. }
  split; [exact H|]. exact (skip_line_invariance _ _ H).
Defined.

Lemma parser_nesting_witness :
  skipped "  ip address 1.2.3.4" = false
  ∧ ∃ st t,
      run init (["interface eth0"] ++ ["  ip address 1.2.3.4"]) = Some st
      ∧ build_tree (["interface eth0"] ++ ["  ip address 1.2.3.4"]) = Some t
      ∧ resolved_parent ["interface eth0"] "  ip address 1.2.3.4" = Some 1%nat
      ∧ stack st = [(2%Z, 2%nat); (0%Z, 1%nat); ((-1)%Z, root)]
      ∧ walk (heap st) 1%nat ["ip address 1.2.3.4"] = Some 2%nat
      ∧ walk (heap st) root ["interface eth0"; "ip address 1.2.3.4"] = Some 2%nat
      ∧ subtree t ["interface eth0"; "ip address 1.2.3.4"] = Some empty_tree.
Proof.
  split; [reflexivity|].
  destruct (parser_nesting ["interface eth0"] "  ip address 1.2.3.4" eq_refl)
    as (st & t & H1 & H2 & H3 & H4 & H5 & H6 & H7 & _).
  exists st, t. repeat split; assumption.
Defined.

Lemma duplicate_sibling_collapse_witness :
  ∃ st t,
    run init (["k"] ++ "a" :: ["  b"] ++ "a" :: ["  c"] ++ ["d"]) = Some st
    ∧ tree_at (heap st) 4%nat = Dict {[ "c" := empty_tree ]}
    ∧ build_tree (["k"] ++ "a" :: ["  b"] ++ "a" :: ["  c"] ++ ["d"]) = Some t
    ∧ subtree t ["a"] = Some (Dict {[ "c" := empty_tree ]}).
Proof.
  assert (Hsub : Forall (fun x => skipped x = true ∨ (indent_of "a" < indent_of x)%Z)
                   ["  c"]).
  { constructor; [right; reflexivity|constructor]. }
  assert (Hkeys : Forall (fun x => skipped x = true ∨ cmd_of x ∉ [] ++ ["a"]) ["d"]).
  { constructor; [right|constructor].
    intros [H|H]%elem_of_cons; [discriminate H|by apply elem_of_nil in H]. }
  assert (Hpost : skipped "d" = false ∧ (indent_of "d" ≤ indent_of "a")%Z).
  { split; [reflexivity|]. vm_compute. discriminate. }
  destruct (duplicate_sibling_collapse ["k"] ["  b"] ["  c"] ["d"] "a" "a"
              eq_refl eq_refl eq_refl eq_refl eq_refl Hsub Hpost)
    as (parent & st1 & st2 & st & t_sub & _ & _ & _ & _ & _ & _ & Hb & Hrun & Ht & Hpath).
  destruct (Hpath Hkeys) as (_ & t & Hbt & Hst).
  assert (Hc : t_sub = Dict {[ "c" := empty_tree ]}).
  { vm_compute in Hb. by injection Hb as <-. }
  exists st, t. rewrite <- Hc. repeat split; assumption.
Defined.


(** * Further properties of diff_trees *)

Lemma subtree_getitem (t : tree) (k : string) (rest : list string) :
  rest ≠ [] → subtree t (k :: rest) = subtree (getitem t k) rest.
Proof.
  intros Hne. simpl. unfold getitem.
  destruct (children t !! k) as [c|]; simpl; [reflexivity|].
  destruct rest as [|k' rest]; [done|]. simpl. by rewrite lookup_empty.
Qed.

Lemma subtree_single (t : tree) (k : string) : subtree t [k] = children t !! k.
Proof. simpl. by destruct (children t !! k). Qed.

Lemma swap_entry_inj (e1 e2 : entry) : swap_entry e1 = swap_entry e2 → e1 = e2.
Proof.
  intros H. apply (f_equal swap_entry) in H.
  by rewrite !swap_entry_involutive in H.
Qed.

Section DifferExtras.

Variable o : SetOrder.

Lemma diff_entries_nil_inv (A B : tree) :
  ∀ p, diff_entries o A B p = [] → A = B.
Proof.
  induction A, B as [A B IH] using tree_pair_ind. intros p H.
  rewrite diff_entries_unfold in H.
  assert (Hk : ∀ k, children A !! k = children B !! k).
  { intros k.
    destruct (decide (k ∈ keys A ∪ keys B)) as [Hin|Hout].
    - assert (Hb : entries_key (diff_entries o) A B p k = []).
      { eapply flat_map_nil in H; [exact H|]. by apply union_iter_elem. }
      unfold entries_key in Hb.
      destruct (contains A k) eqn:Ea; destruct (contains B k) eqn:Eb;
        simpl in Hb; try discriminate.
      + apply contains_true in Ea as [a Ha]. apply contains_true in Eb as [b Hb'].
        rewrite Ha, Hb'. f_equal.
        destruct (diff_entries o (getitem A k) (getitem B k) (p ++ [k])) eqn:Hc;
          [|discriminate].
        apply IH in Hc; [|exact Hin].
        by rewrite (getitem_Some _ _ _ Ha), (getitem_Some _ _ _ Hb') in Hc.
      + apply contains_false in Ea, Eb. by rewrite Ea, Eb.
    - apply not_elem_of_union in Hout as [Ha Hb].
      unfold keys in Ha, Hb. apply not_elem_of_dom in Ha, Hb. by rewrite Ha, Hb. }
  destruct A as [ma], B as [mb]. f_equal. apply map_eq. exact Hk.
Qed.

(** The entries of the block of one key: its own line, with the marker the
    two trees call for, and the report of its subtrees. *)
Lemma entries_key_inv (A B : tree) p k e :
  e ∈ entries_key (diff_entries o) A B p k →
  (∃ m, e = Entry p m k ∧ node_status m (children A !! k) (children B !! k))
  ∨ e ∈ diff_entries o (getitem A k) (getitem B k) (p ++ [k]).
Proof.
  rewrite entries_key_shape. simpl.
  destruct (contains A k) eqn:Ea; destruct (contains B k) eqn:Eb; simpl.
  - apply contains_true in Ea as [a Ha]. apply contains_true in Eb as [b Hb].
    rewrite (getitem_Some _ _ _ Ha), (getitem_Some _ _ _ Hb).
    destruct (diff_entries o a b (p ++ [k])) as [|e0 cd] eqn:E;
      [by intros ?%elem_of_nil|].
    intros [->|H]%elem_of_cons; [left|by right].
    exists Header. split; [reflexivity|]. exists a, b. repeat split; [done..|].
    intros ->. by rewrite diff_entries_same in E.
  - intros [->|H]%elem_of_cons; [left|by right].
    exists Removed. split; [reflexivity|]. apply contains_true in Ea.
    apply contains_false in Eb. by split.
  - intros [->|H]%elem_of_cons; [left|by right].
    exists Added. split; [reflexivity|]. apply contains_true in Eb.
    apply contains_false in Ea. by split.
  - apply contains_false in Ea, Eb.
    rewrite (getitem_None _ _ Ea), (getitem_None _ _ Eb).
    unfold diff_entries. rewrite diff_entries_rec_empty. by intros ?%elem_of_nil.
Qed.

Lemma entries_key_head (A B : tree) p k m :
  node_status m (children A !! k) (children B !! k) →
  Entry p m k ∈ entries_key (diff_entries o) A B p k.
Proof.
  intros Hst. unfold entries_key. destruct m; simpl in Hst.
  - destruct Hst as [Ha Hb].
    assert (contains A k = true) as -> by by apply contains_true.
    assert (contains B k = false) as -> by by apply contains_false.
    simpl. left.
  - destruct Hst as [Ha Hb].
    assert (contains A k = false) as -> by by apply contains_false.
    assert (contains B k = true) as -> by by apply contains_true.
    simpl. left.
  - destruct Hst as (a & b & Ha & Hb & Hne).
    assert (contains A k = true) as -> by (apply contains_true; by eexists).
    assert (contains B k = true) as -> by (apply contains_true; by eexists).
    simpl. rewrite (getitem_Some _ _ _ Ha), (getitem_Some _ _ _ Hb).
    destruct (diff_entries o a b (p ++ [k])) eqn:E; [|left].
    by apply diff_entries_nil_inv in E.
Qed.

Lemma entries_key_deeper (A B : tree) p k e :
  e ∈ diff_entries o (getitem A k) (getitem B k) (p ++ [k]) →
  e ∈ entries_key (diff_entries o) A B p k.
Proof.
  intros He. rewrite entries_key_shape. simpl.
  destruct (contains A k && negb (contains B k)); [by right|].
  destruct (contains B k && negb (contains A k)); [by right|].
  destruct (diff_entries o (getitem A k) (getitem B k) (p ++ [k]));
    [by apply elem_of_nil in He|by right].
Qed.

Lemma node_status_key (m : marker) (A B : tree) (k : string) (rest : list string) :
  node_status m (subtree A (k :: rest)) (subtree B (k :: rest)) →
  k ∈ keys A ∪ keys B.
Proof.
  assert (Hin : ∀ t, is_Some (subtree t (k :: rest)) → k ∈ keys t).
  { intros t Hs. apply contains_keys, contains_true. simpl in Hs.
    destruct (children t !! k) as [c|]; [by eexists|by destruct Hs]. }
  destruct m; unfold node_status.
  - intros [Ha _]. apply elem_of_union_l. by apply Hin.
  - intros [_ Hb]. apply elem_of_union_r. by apply Hin.
  - intros (a & b & Ha & _ & _). apply elem_of_union_l. apply Hin.
    rewrite Ha. by eexists.
Qed.

(** An entry is in the report exactly when its node has the status its
    marker names. *)
Lemma diff_entries_spec (A B : tree) :
  ∀ p q k m,
    Entry (p ++ q) m k ∈ diff_entries o A B p
    ↔ node_status m (subtree A (q ++ [k])) (subtree B (q ++ [k])).
Proof.
  induction A, B as [A B IH] using tree_pair_ind. intros p q k m.
  rewrite diff_entries_unfold. split.
  - intros He. apply list_elem_of_In, in_flat_map in He as (k1 & Hk1 & He).
    apply list_elem_of_In in Hk1, He. apply union_iter_elem in Hk1.
    apply entries_key_inv in He as [(m' & Heq & Hst)|He].
    + injection Heq as Hp -> ->.
      assert (q = []) as -> by (apply (app_inv_head p); by rewrite app_nil_r).
      simpl app. by rewrite !subtree_single.
    + pose proof (diff_entries_below _ _ _ _ _ He) as [r Hr]. simpl in Hr.
      rewrite <- app_assoc in Hr. apply app_inv_head in Hr. subst q.
      replace (p ++ [k1] ++ r) with ((p ++ [k1]) ++ r) in He
        by by rewrite <- app_assoc.
      apply (IH k1 Hk1) in He. simpl app.
      rewrite !subtree_getitem by by destruct r. exact He.
  - intros Hst. apply list_elem_of_In, in_flat_map.
    destruct q as [|k1 q]; simpl app in Hst.
    + exists k. split.
      * apply list_elem_of_In, union_iter_elem. by eapply node_status_key.
      * apply list_elem_of_In. rewrite app_nil_r. apply entries_key_head.
        by rewrite !subtree_single in Hst.
    + pose proof (node_status_key _ _ _ _ _ Hst) as Hk1.
      exists k1. split; [by apply list_elem_of_In, union_iter_elem|].
      apply list_elem_of_In, entries_key_deeper.
      rewrite !subtree_getitem in Hst by by destruct q.
      replace (p ++ k1 :: q) with ((p ++ [k1]) ++ q) by by rewrite <- app_assoc.
      by apply (IH k1 Hk1).
Qed.

(** *** Reports of an added subtree *)

Lemma swap_report (A B : tree) (p : list string) :
  map swap_entry (diff_entries o A B p) ≡ₚ diff_entries o B A p.
Proof.
  assert (Hinj : Inj (=) (=) swap_entry) by (intros e1 e2; apply swap_entry_inj).
  apply NoDup_Permutation.
  - apply (NoDup_fmap_2 swap_entry), diff_entries_NoDup.
  - apply diff_entries_NoDup.
  - intros x. split.
    + intros (e & -> & He)%list_elem_of_fmap. by apply diff_entries_swap_elem.
    + intros Hx. apply list_elem_of_fmap. exists (swap_entry x).
      split; [by rewrite swap_entry_involutive|].
      by apply diff_entries_swap_elem.
Qed.

Lemma added_length (t : tree) (p : list string) :
  length (diff_entries o empty_tree t p) = tsize t.
Proof.
  rewrite <- (removed_length o t p), <- (Permutation_length (swap_report empty_tree t p)).
  by rewrite length_map.
Qed.

Lemma added_marks (t : tree) (p : list string) (e : entry) :
  e ∈ diff_entries o empty_tree t p → e_mark e = Added.
Proof.
  intros He%diff_entries_swap_elem%removed_marks.
  by destruct e as [q [] k].
Qed.

Lemma added_unfold_key (old_tree new_tree sub : tree) (p : list string) (k : string) :
  children old_tree !! k = None → children new_tree !! k = Some sub →
  entries_key (diff_entries o) old_tree new_tree p k
  = Entry p Added k :: diff_entries o empty_tree sub (p ++ [k]).
Proof.
  intros Hold Hnew. unfold entries_key.
  assert (contains old_tree k = false) as -> by by apply contains_false.
  assert (contains new_tree k = true) as -> by (apply contains_true; by eexists).
  simpl. by rewrite (getitem_Some _ _ _ Hnew).
Qed.

(** X1. The report is exact: a line marked removed (added) stands for a node
    that the old (new) tree holds and the other does not, a header line for
    a node that both hold with different subtrees, and every such node has
    its line. *)
Theorem report_exact (A B : tree) (indent : Z) (q : list string) (k : string)
    (m : marker) :
  diff_trees o A B indent = map (render indent) (diff_entries o A B [])
  ∧ (Entry q m k ∈ diff_entries o A B []
     ↔ node_status m (subtree A (q ++ [k])) (subtree B (q ++ [k]))).
Proof.
  split.
  - rewrite <- (diff_trees_render o A B indent []). f_equal. simpl. lia.
  - apply (diff_entries_spec A B [] q k m).
Qed.

(** X2. A key present only in the new tree is reported, together with every
    node below it, as added: its block is the added entry for the key
    followed by the report of the empty tree against its subtree one level
    deeper, one entry per node, all marked added, and no other entry of the
    report is about the key or a node below it. *)
Theorem added_subtree_reported
    (old_tree new_tree sub : tree) (base : Z) (p : list string) (k : string) :
  children old_tree !! k = None →
  children new_tree !! k = Some sub →
  let d := (base + Z.of_nat (length p))%Z in
  let below := diff_entries o empty_tree sub (p ++ [k]) in
  ∃ before after,
    diff_entries o old_tree new_tree p = before ++ (Entry p Added k :: below) ++ after
    ∧ (∀ e, e ∈ before ++ after → ¬ (p ++ [k]) `prefix_of` node_path e)
    ∧ diff_trees o old_tree new_tree d
      = map (render base) before
        ++ (added_line d k :: diff_trees o empty_tree sub (d + 1))
        ++ map (render base) after
    ∧ length (Entry p Added k :: below) = S (tsize sub)
    ∧ (∀ e, e ∈ Entry p Added k :: below → e_mark e = Added)
    ∧ (∀ q k', Entry ((p ++ [k]) ++ q) Added k' ∈ below
               ↔ is_Some (subtree sub (q ++ [k']))).
Proof.
  intros Hold Hnew. cbv zeta.
  set (below := diff_entries o empty_tree sub (p ++ [k])).
  assert (Hk : k ∈ keys old_tree ∪ keys new_tree).
  { apply elem_of_union_r, contains_keys, contains_true. by eexists. }
  destruct (diff_entries_split o old_tree new_tree p k Hk)
    as (before & after & Heq & Hapart).
  rewrite (added_unfold_key _ _ _ _ _ Hold Hnew) in Heq. fold below in Heq.
  exists before, after. split; [exact Heq|]. split; [exact Hapart|].
  split; [|split; [|split]].
  - rewrite diff_trees_render, Heq, !map_app. simpl. do 3 f_equal.
    replace (base + Z.of_nat (length p) + 1)%Z
      with (base + Z.of_nat (length (p ++ [k])))%Z by (rewrite length_app; simpl; lia).
    symmetry. apply diff_trees_render.
  - simpl. f_equal. apply added_length.
  - intros e [->|He]%elem_of_cons; [reflexivity|]. by apply added_marks in He.
  - intros q k'. unfold below. rewrite (diff_entries_spec empty_tree sub).
    simpl. split.
    + by intros [_ H].
    + intros H. split; [|exact H]. destruct (q ++ [k']) as [|x r] eqn:E.
      * by destruct q.
      * simpl. by rewrite lookup_empty.
Qed.

Lemma flat_map_nonempty {A B : Type} (f : A → list B) (l : list A) :
  flat_map f l ≠ [] → ∃ x, x ∈ l ∧ f x ≠ [].
Proof.
  induction l as [|a l IH]; simpl; [done|]. intros H.
  destruct (f a) as [|b bs] eqn:E.
  - destruct (IH H) as (x & Hx & Hfx). exists x. split; [by right|done].
  - exists a. split; [left|]. by rewrite E.
Qed.

Lemma report_has_change (A B : tree) :
  ∀ p, diff_entries o A B p ≠ [] →
    ∃ e, e ∈ diff_entries o A B p ∧ e_mark e ≠ Header.
Proof.
  induction A, B as [A B IH] using tree_pair_ind. intros p Hne.
  rewrite diff_entries_unfold in Hne |- *.
  apply flat_map_nonempty in Hne as (k & Hk & Hblock).
  assert (Hgoal : ∃ e, e ∈ entries_key (diff_entries o) A B p k ∧ e_mark e ≠ Header).
  { rewrite entries_key_shape in Hblock |- *. simpl in *.
    destruct (contains A k && negb (contains B k)).
    { eexists. split; [left|done]. }
    destruct (contains B k && negb (contains A k)).
    { eexists. split; [left|done]. }
    destruct (diff_entries o (getitem A k) (getitem B k) (p ++ [k])) as [|e0 cd] eqn:E;
      [done|].
    destruct (IH k (proj1 (union_iter_elem o _ _ k) Hk) (p ++ [k])) as (e & He & Hm).
    { by rewrite E. }
    exists e. split; [right; by rewrite <- E|done]. }
  destruct Hgoal as (e & He & Hm). exists e. split; [|done].
  apply list_elem_of_In, in_flat_map. exists k.
  split; by apply list_elem_of_In.
Qed.

(** X3. A header line is never printed alone: below every header of the
    report there is a line marked removed or added. *)
Theorem header_has_change (A B : tree) (indent : Z) (e : entry) :
  e ∈ diff_entries o A B [] → e_mark e = Header →
  diff_trees o A B indent = map (render indent) (diff_entries o A B [])
  ∧ ∃ e', e' ∈ diff_entries o A B []
          ∧ e_mark e' ≠ Header
          ∧ node_path e `prefix_of` e_path e'.
Proof.
  intros He Hm. split.
  { rewrite <- (diff_trees_render o A B indent []). f_equal. simpl. lia. }
  destruct e as [q m k]. simpl in Hm. subst m.
  pose proof (proj1 (diff_entries_spec A B [] q k Header) He) as (a & b & Ha & Hb & Hne).
  assert (Hcd : diff_entries o a b (q ++ [k]) ≠ []).
  { intros H. by apply diff_entries_nil_inv in H. }
  destruct (report_has_change a b _ Hcd) as ([q' m' k'] & He' & Hm').
  pose proof (diff_entries_below o _ _ _ _ He') as [r Hr]. simpl in Hr. subst q'.
  exists (Entry ((q ++ [k]) ++ r) m' k'). split; [|split; [done|]].
  - apply (diff_entries_spec A B [] ((q ++ [k]) ++ r) k' m').
    apply (diff_entries_spec a b (q ++ [k]) r k' m') in He'.
    rewrite <- !app_assoc.
    assert (Hsub : ∀ t c, subtree t (q ++ [k]) = Some c →
              subtree t (q ++ [k] ++ r ++ [k']) = subtree c (r ++ [k'])).
    { intros t c. rewrite app_assoc. generalize (q ++ [k]). clear.
      intros l. revert t. induction l as [|x l IH]; intros t Hc; simpl in *.
      - by injection Hc as ->.
      - destruct (children t !! x); [by apply IH|done]. }
    by rewrite (Hsub A a Ha), (Hsub B b Hb).
  - simpl. unfold node_path. simpl. by apply prefix_app_r.
Qed.

End DifferExtras.

(** * Further properties of build_tree *)

Module PyStrMore.
Import PyStr.

Lemma lstrip_idem (s : string) : lstrip (lstrip s) = lstrip s.
Proof.
  induction s as [|c s IH]; [reflexivity|]. simpl.
  destruct (isspace c) eqn:Ec; [exact IH|]. simpl. by rewrite Ec.
Qed.

Lemma strip_idem (s : string) : strip (strip s) = strip s.
Proof.
  unfold strip.
  rewrite (PyStrFacts.lstrip_rstrip (lstrip s)), lstrip_idem.
  apply PyStrFacts.rstrip_idem.
Qed.

Lemma leading_spaces_rstrip (s : string) :
  rstrip s ≠ "" → leading_spaces (rstrip s) = leading_spaces s.
Proof.
  induction s as [|c s IH]; [done|]. simpl.
  destruct (rstrip s) as [|c' r] eqn:E.
  - destruct (isspace c) eqn:Ec; [done|]. intros _. simpl. by rewrite Ec.
  - intros _. simpl. destruct (isspace c); [|reflexivity].
    f_equal. by apply IH.
Qed.

Lemma strip_nonempty (s : string) : strip s ≠ "" → rstrip s ≠ "".
Proof.
  intros H E. apply H. unfold strip.
  rewrite <- PyStrFacts.lstrip_rstrip, E. reflexivity.
Qed.

End PyStrMore.

Lemma skipped_rstrip (line : string) : skipped (PyStr.rstrip line) = skipped line.
Proof. unfold skipped. by rewrite PyStrFacts.rstrip_idem. Qed.

Lemma cmd_of_rstrip (line : string) : cmd_of (PyStr.rstrip line) = cmd_of line.
Proof. unfold cmd_of. by rewrite PyStrFacts.rstrip_idem. Qed.

Lemma indent_of_rstrip (line : string) :
  skipped line = false → indent_of (PyStr.rstrip line) = indent_of line.
Proof.
  intros Hs. rewrite !indent_of_leading. f_equal.
  apply PyStrMore.leading_spaces_rstrip, PyStrMore.strip_nonempty.
  intros E. assert (skipped line = true) by (apply skipped_spec; by left).
  congruence.
Qed.

Lemma step_rstrip (st : builder) (line : string) :
  step st (PyStr.rstrip line) = step st line.
Proof.
  unfold step. rewrite skipped_rstrip.
  destruct (skipped line) eqn:Hs; [reflexivity|].
  by rewrite cmd_of_rstrip, indent_of_rstrip.
Qed.

Lemma run_rstrip (ls : list string) :
  ∀ st, run st (map PyStr.rstrip ls) = run st ls.
Proof.
  induction ls as [|l ls IH]; intros st; simpl; [reflexivity|].
  rewrite step_rstrip. destruct (step st l); [apply IH|reflexivity].
Qed.

Lemma rstrip_newline (s : string) : PyStr.rstrip (s +:+ newline) = PyStr.rstrip s.
Proof.
  induction s as [|c s IH]; [reflexivity|].
  simpl. by rewrite IH.
Qed.

(** X4. Trailing whitespace never matters: two inputs whose lines agree up
    to trailing whitespace, line terminators included, give the same tree. *)
Theorem trailing_whitespace_ignored (ls ls' : list string) :
  map PyStr.rstrip ls = map PyStr.rstrip ls' →
  build_tree ls = build_tree ls'
  ∧ build_tree (map (fun l => l +:+ newline) ls) = build_tree ls.
Proof.
  intros H. unfold build_tree. split.
  - by rewrite <- (run_rstrip ls), <- (run_rstrip ls'), H.
  - rewrite <- (run_rstrip ls), <- (run_rstrip (map _ ls)), map_map.
    rewrite (map_ext (fun x => PyStr.rstrip (x +:+ newline)) PyStr.rstrip);
      [reflexivity|]. intros l. apply rstrip_newline.
Qed.

(** *** Keys *)

Lemma store_keys_step (P : string → Prop) (st st' : builder) (line : string) :
  (skipped line = false → P (cmd_of line)) →
  store_keys P (heap st) → step st line = Some st' → store_keys P (heap st').
Proof.
  intros HP Hk Hstep. unfold step in Hstep.
  destruct (skipped line); [by injection Hstep as <-|].
  destruct (pop_while (indent_of line) (pop_while (indent_of line) (stack st)))
    as [|[i parent] stk]; [done|].
  simpl in Hstep. injection Hstep as <-. simpl.
  intros a d k b Ha Hd. unfold setitem in Ha.
  destruct (decide (a = parent)) as [->|Hne].
  - rewrite list_lookup_alter_eq in Ha.
    destruct ((heap st ++ [∅]) !! parent) as [d0|] eqn:Hd0; [|done].
    simpl in Ha. injection Ha as <-.
    destruct (decide (k = cmd_of line)) as [->|Hk']; [by apply HP|].
    rewrite lookup_insert_ne in Hd by done.
    apply lookup_app_Some in Hd0 as [Hd0|[_ Hd0]]; [by eapply Hk|].
    destruct (parent - length (heap st))%nat; simpl in Hd0; [|done].
    injection Hd0 as <-. by rewrite lookup_empty in Hd.
  - rewrite list_lookup_alter_ne in Ha by done.
    apply lookup_app_Some in Ha as [Ha|[_ Ha]]; [by eapply Hk|].
    destruct (a - length (heap st))%nat; simpl in Ha; [|done].
    injection Ha as <-. by rewrite lookup_empty in Hd.
Qed.

Lemma store_keys_run (P : string → Prop) (ls : list string) :
  (∀ line, line ∈ ls → skipped line = false → P (cmd_of line)) →
  ∀ st st', store_keys P (heap st) → run st ls = Some st' →
    store_keys P (heap st').
Proof.
  induction ls as [|l ls IH]; intros HP st st' Hk Hrun; simpl in Hrun.
  - by injection Hrun as <-.
  - destruct (step st l) as [st0|] eqn:Hstep; [|done].
    assert (HP' : ∀ line, line ∈ ls → skipped line = false → P (cmd_of line)).
    { intros x Hx. apply HP. by right. }
    apply (IH HP' st0 st'); [|done].
    eapply store_keys_step; [|exact Hk|exact Hstep]. apply HP. left.
Qed.

Lemma tree_at_keys (P : string → Prop) (h : list (gmap string nat)) :
  store_ordered h → store_keys P h →
  ∀ q a k, is_Some (subtree (tree_at h a) (q ++ [k])) → P k.
Proof.
  intros Hord Hk. induction q as [|k1 q IH]; intros a k Hs; simpl in Hs.
  - rewrite tree_at_unfold in Hs by done. simpl in Hs.
    rewrite lookup_fmap in Hs.
    destruct (h !! a) as [d|] eqn:Hd; simpl in Hs.
    + destruct (d !! k) as [b|] eqn:Hb; [by eapply Hk|by destruct Hs].
    + rewrite lookup_empty in Hs. by destruct Hs.
  - rewrite tree_at_unfold in Hs by done. simpl in Hs.
    rewrite lookup_fmap in Hs.
    destruct (h !! a) as [d|] eqn:Hd; simpl in Hs.
    + destruct (d !! k1) as [b|] eqn:Hb; simpl in Hs; [by eapply IH|by destruct Hs].
    + rewrite lookup_empty in Hs. by destruct Hs.
Qed.

(** X5. Every key of the tree, at every level, is the trimmed text of an
    input line that is not skipped: it is never empty, never a lone "!", and
    carries no leading or trailing whitespace. *)
Theorem keys_are_commands (config_lines : list string) (t : tree)
    (q : list string) (k : string) :
  build_tree config_lines = Some t →
  is_Some (subtree t (q ++ [k])) →
  (∃ line, line ∈ config_lines ∧ skipped line = false ∧ k = PyStr.strip line)
  ∧ k ≠ "" ∧ k ≠ "!" ∧ PyStr.strip k = k.
Proof.
  intros Hb Hs. unfold build_tree in Hb.
  destruct (run init config_lines) as [st|] eqn:Hrun; [|done].
  injection Hb as <-.
  destruct (run_store _ _ Hrun) as [Hord _].
  set (P := fun k => ∃ line, line ∈ config_lines ∧ skipped line = false
                             ∧ k = PyStr.strip line).
  assert (HP : store_keys P (heap st)).
  { apply (store_keys_run P config_lines) with (st := init); [| |exact Hrun].
    - intros line Hin Hsk. exists line. by rewrite cmd_of_strip.
    - intros a d k0 b Ha Hd. destruct a; simpl in Ha; [|done].
      injection Ha as <-. by rewrite lookup_empty in Hd. }
  pose proof (tree_at_keys P _ Hord HP q root k Hs) as (line & Hin & Hsk & ->).
  split; [by exists line|].
  assert (Hns : ¬ (PyStr.strip line = "" ∨ PyStr.strip line = "!")).
  { intros H%skipped_spec. congruence. }
  repeat split; [tauto|tauto|apply PyStrMore.strip_idem].
Qed.

(** *** Indentation matters through its order only *)

Lemma pop_while_reindented (f : Z → Z) (ind : Z) (body : list (Z * nat)) :
  (∀ x y, (x ≤ y)%Z ↔ (f x ≤ f y)%Z) → (0 ≤ ind)%Z → (0 ≤ f ind)%Z →
  ∃ body',
    pop_while ind (body ++ [((-1)%Z, root)]) = body' ++ [((-1)%Z, root)]
    ∧ pop_while (f ind) (map (fun e => (f e.1, e.2)) body ++ [((-1)%Z, root)])
      = map (fun e => (f e.1, e.2)) body' ++ [((-1)%Z, root)].
Proof.
  intros Hf H0 H0'. induction body as [|[i a] body IH]; simpl.
  - exists []. simpl.
    destruct (Z.leb_spec ind (-1)); [lia|]. destruct (Z.leb_spec (f ind) (-1)); [lia|].
    by split.
  - destruct (Z.leb_spec ind i) as [Hle|Hgt]; destruct (Z.leb_spec (f ind) (f i)) as [Hle'|Hgt'].
    + exact IH.
    + apply Hf in Hle. lia.
    + apply Hf in Hle'. lia.
    + exists ((i, a) :: body). by split.
Qed.

Lemma step_reindented (f : Z → Z) (st st' : builder) (l l' : string) :
  (∀ x y, (x ≤ y)%Z ↔ (f x ≤ f y)%Z) →
  skipped l' = skipped l → cmd_of l' = cmd_of l →
  (skipped l = false → indent_of l' = f (indent_of l)) →
  reindented f st st' →
  ∃ st1 st1', step st l = Some st1 ∧ step st' l' = Some st1'
              ∧ reindented f st1 st1'.
Proof.
  intros Hf Hs Hc Hi (Hheap & body & Hstk & Hstk'). unfold step. rewrite Hs.
  destruct (skipped l) eqn:Hsk.
  { exists st, st'. repeat split; [done|]. by exists body. }
  rewrite Hc, (Hi eq_refl), Hstk, Hstk', Hheap.
  pose proof (indent_of_nonneg l) as H0.
  assert (H0' : (0 ≤ f (indent_of l))%Z).
  { rewrite <- (Hi eq_refl). apply indent_of_nonneg. }
  destruct (pop_while_reindented f _ body Hf H0 H0') as (b1 & -> & ->).
  destruct (pop_while_reindented f _ b1 Hf H0 H0') as (b2 & -> & ->).
  assert (Hhead : ∃ i i' parent rest rest',
    b2 ++ [((-1)%Z, root)] = (i, parent) :: rest
    ∧ map (fun e : Z * nat => (f e.1, e.2)) b2 ++ [((-1)%Z, root)]
      = (i', parent) :: rest').
  { destruct b2 as [|[j a] b2]; simpl; eauto 10. }
  destruct Hhead as (i & i' & parent & rest & rest' & E & E').
  pose proof E as Ek. pose proof E' as Ek'.
  rewrite E, E'. simpl.
  eexists _, _. split; [reflexivity|]. split; [reflexivity|].
  split; [reflexivity|]. simpl.
  exists ((indent_of l, length (heap st)) :: b2). simpl.
  by rewrite <- Ek, <- Ek'.
Qed.

Lemma run_reindented (f : Z → Z) (ls ls' : list string) :
  (∀ x y, (x ≤ y)%Z ↔ (f x ≤ f y)%Z) →
  Forall2 (fun l l' => skipped l' = skipped l ∧ cmd_of l' = cmd_of l
                       ∧ (skipped l = false → indent_of l' = f (indent_of l)))
          ls ls' →
  ∀ st st', reindented f st st' →
    ∃ st1 st1', run st ls = Some st1 ∧ run st' ls' = Some st1'
                ∧ reindented f st1 st1'.
Proof.
  intros Hf. induction 1 as [|l l' ls ls' (Hs & Hc & Hi) _ IH]; intros st st' Hr; simpl.
  - by exists st, st'.
  - destruct (step_reindented f st st' l l' Hf Hs Hc Hi Hr)
      as (st1 & st1' & -> & -> & Hr1).
    by apply IH.
Qed.

(** X6. Only the order of the indentations matters: two inputs with the same
    skipped lines and the same trimmed texts, whose indentations correspond
    under an order-preserving map (doubled, say, or tabs for pairs of
    spaces), give the same tree. *)
Theorem indentation_order_only (f : Z → Z) (ls ls' : list string) :
  (∀ x y, (x ≤ y)%Z ↔ (f x ≤ f y)%Z) →
  Forall2 (fun l l' => skipped l' = skipped l ∧ cmd_of l' = cmd_of l
                       ∧ (skipped l = false → indent_of l' = f (indent_of l)))
          ls ls' →
  build_tree ls' = build_tree ls.
Proof.
  intros Hf Hall.
  assert (Hinit : reindented f init init).
  { split; [reflexivity|]. by exists []. }
  destruct (run_reindented f ls ls' Hf Hall init init Hinit)
    as (st1 & st1' & Hrun & Hrun' & Hheap & _).
  unfold build_tree. by rewrite Hrun, Hrun', Hheap.
Qed.

(** * generate_diff *)






(** * How build_tree composes *)

Lemma pop_while_map (g : nat → nat) (ind : Z) (stk : list (Z * nat)) :
  pop_while ind (map (fun e => (e.1, g e.2)) stk)
  = map (fun e => (e.1, g e.2)) (pop_while ind stk).
Proof.
  induction stk as [|[i a] stk IH]; simpl; [reflexivity|].
  destruct (ind <=? i)%Z; [exact IH|reflexivity].
Qed.

Lemma step_beside (d0 : gmap string nat) (mid : list (gmap string nat))
    (st st' st1' : builder) (line : string) :
  beside d0 mid st st' → step st' line = Some st1' →
  ∃ st1, step st line = Some st1 ∧ beside d0 mid st1 st1'.
Proof.
  intros (Hstk & d' & tl' & Hh' & Hh) Hstep. unfold step in *.
  destruct (skipped line).
  { injection Hstep as <-. exists st. split; [done|]. split; [done|]. by exists d', tl'. }
  rewrite Hstk, !pop_while_map.
  destruct (pop_while (indent_of line) (pop_while (indent_of line) (stack st')))
    as [|[i parent] stk]; [done|].
  simpl in Hstep. injection Hstep as <-. simpl.
  eexists. split; [reflexivity|]. split; simpl.
  { f_equal. f_equal. rewrite Hh, Hh'. simpl. rewrite length_app, length_map. lia. }
  rewrite Hh'. unfold setitem.
  assert (Hfresh : length (heap st) = beside_addr (length mid) (length (d' :: tl'))).
  { rewrite Hh. simpl. rewrite length_app, length_map. lia. }
  rewrite Hfresh. rewrite Hh.
  destruct parent as [|j]; simpl.
  - exists (<[cmd_of line:=S (length tl')]> d'), (tl' ++ [∅]).
    split; [reflexivity|]. f_equal.
    + rewrite fmap_insert, insert_union_l. reflexivity.
    + rewrite map_app, <- app_assoc. simpl. by rewrite fmap_empty.
  - exists d', (alter (insert (cmd_of line) (S (length tl'))) j (tl' ++ [∅])).
    split; [reflexivity|]. f_equal.
    rewrite <- app_assoc.
    etrans; [apply (alter_app_r _ mid _ j)|]. f_equal.
    change (map (fmap (beside_addr (length mid))) tl' ++ [∅])
      with (map (fmap (beside_addr (length mid))) tl' ++ [∅ : gmap string nat]).
    rewrite <- (fmap_empty (beside_addr (length mid))) at 1.
    change [beside_addr (length mid) <$> (∅ : gmap string nat)]
      with (map (fmap (M:=gmap string) (beside_addr (length mid))) [∅]).
    rewrite <- map_app.
    change (map (fmap (M:=gmap string) (beside_addr (length mid))))
      with (fmap (M:=list) (fmap (M:=gmap string) (beside_addr (length mid)))).
    symmetry. apply list_fmap_alter.
    apply Forall_forall. intros d _. simpl. by rewrite fmap_insert.
Qed.

Lemma run_beside (d0 : gmap string nat) (mid : list (gmap string nat))
    (ls : list string) :
  ∀ st st' st1', beside d0 mid st st' → run st' ls = Some st1' →
    ∃ st1, run st ls = Some st1 ∧ beside d0 mid st1 st1'.
Proof.
  induction ls as [|l ls IH]; intros st st' st1' Hb Hrun; simpl in *.
  - injection Hrun as <-. by exists st.
  - destruct (step st' l) as [st0'|] eqn:Hstep; [|done].
    destruct (step_beside _ _ _ _ _ _ Hb Hstep) as (st0 & -> & Hb0).
    by apply (IH st0 st0').
Qed.

Lemma reify_beside_new (X : gmap string nat) (mid tl' : list (gmap string nat))
    (d' : gmap string nat) :
  store_ordered (d' :: tl') →
  ∀ fuel j,
    reify fuel (X :: mid ++ map (fmap (beside_addr (length mid))) tl')
          (S (length mid + j))
    = reify fuel (d' :: tl') (S j).
Proof.
  intros Hord. induction fuel as [|fuel IH]; intros j; [reflexivity|].
  simpl. f_equal.
  rewrite lookup_app_r by lia.
  replace (length mid + j - length mid)%nat with j by lia.
  change (map (fmap (beside_addr (length mid))) tl')
    with (fmap (M:=list) (fmap (M:=gmap string) (beside_addr (length mid))) tl').
  rewrite list_lookup_fmap.
  destruct (tl' !! j) as [d|] eqn:Hd; simpl; [|by rewrite !fmap_empty].
  rewrite <- map_fmap_compose. apply map_fmap_ext. intros k b Hb. simpl.
  assert (Hlt : (S j < b)%nat) by (apply (Hord (S j) d k b); done).
  destruct b as [|b']; [lia|]. simpl. apply IH.
Qed.

Lemma reify_beside_old (X d0 : gmap string nat) (mid tail : list (gmap string nat)) :
  store_ordered (d0 :: mid) →
  ∀ fuel b, (b < length mid)%nat →
    reify fuel (X :: mid ++ tail) (S b) = reify fuel (d0 :: mid) (S b).
Proof.
  intros Hord. induction fuel as [|fuel IH]; intros b Hb; [reflexivity|].
  simpl. f_equal. rewrite lookup_app_l by done.
  destruct (mid !! b) as [d|] eqn:Hd; simpl; [|reflexivity].
  apply map_fmap_ext. intros k c Hc.
  pose proof (Hord (S b) d k c Hd Hc) as [H1 H2]. simpl in H2.
  destruct c as [|c']; [lia|]. apply IH. lia.
Qed.

Lemma step_init (l : string) :
  skipped l = false →
  step init l = Some {| heap := [<[cmd_of l:=1%nat]> ∅; ∅];
                        stack := [(indent_of l, 1%nat); ((-1)%Z, root)] |}.
Proof.
  intros Hs. unfold step. rewrite Hs. simpl.
  pose proof (indent_of_nonneg l).
  destruct (Z.leb_spec (indent_of l) (-1)); [lia|]. simpl.
  destruct (Z.leb_spec (indent_of l) (-1)); [lia|]. reflexivity.
Qed.

Lemma open_scopes_lines (back : list string) (x : string * list string) :
  x ∈ open_scopes back → x.1 ∈ back ∧ skipped x.1 = false.
Proof.
  induction back as [|l before IH]; simpl; [by intros ?%elem_of_nil|].
  destruct (skipped l) eqn:Hs.
  - intros [? ?]%IH. split; [by right|done].
  - intros [->|Hx]%elem_of_cons; [split; [left|done]|].
    assert (Hin : ∀ ind, x ∈ enclosing before ind → x.1 ∈ before).
    { clear. induction before as [|l' b IHb]; simpl; intros ind;
        [by intros ?%elem_of_nil|].
      destruct (negb (skipped l') && (indent_of l' <? ind)%Z).
      - intros [->|H]%elem_of_cons; [left|right; by eapply IHb].
      - intros H. right. by eapply IHb. }
    split; [right; by eapply Hin|]. by apply enclosing_indents in Hx as [? _].
Qed.

Lemma build_tree_split (pre post : list string) (p : string) :
  skipped p = false →
  (∀ x, x ∈ pre → skipped x = true ∨ (indent_of p ≤ indent_of x)%Z) →
  ∃ t_pre t_post,
    build_tree pre = Some t_pre
    ∧ build_tree (p :: post) = Some t_post
    ∧ build_tree (pre ++ p :: post)
      = Some (Dict (children t_post ∪ children t_pre)).
Proof.
  intros Hs Hpre.
  destruct (run_stack pre) as (st0 & Hrun0 & Hstk0 & Hlen0).
  destruct (run_store _ _ Hrun0) as [Hord0 _].
  destruct (run_stack (p :: post)) as (st2' & Hrun2' & _ & _).
  destruct (run_store _ _ Hrun2') as [Hord2' _].
  destruct (run_stack (pre ++ p :: post)) as (st2 & Hrun2 & _ & _).
  destruct (run_store _ _ Hrun2) as [Hord2 _].
  destruct (heap st0) as [|d0 mid] eqn:Hh0; [simpl in Hlen0; lia|].
  (* the first line of the second part, in both runs *)
  simpl in Hrun2'. rewrite (step_init p Hs) in Hrun2'.
  set (st1' := {| heap := [<[cmd_of p:=1%nat]> ∅; ∅];
                  stack := [(indent_of p, 1%nat); ((-1)%Z, root)] |}) in *.
  assert (Hstep : step st0 p
    = Some {| heap := <[cmd_of p:=length (d0 :: mid)]> d0 :: mid ++ [∅];
              stack := [(indent_of p, length (d0 :: mid)); ((-1)%Z, root)] |}).
  { unfold step. rewrite Hs, Hstk0, pop_while_twice by apply indent_of_nonneg.
    rewrite (enclosing_none pre (indent_of p) Hpre). simpl. by rewrite Hh0. }
  set (st1 := {| heap := <[cmd_of p:=length (d0 :: mid)]> d0 :: mid ++ [∅];
                 stack := [(indent_of p, length (d0 :: mid)); ((-1)%Z, root)] |}) in *.
  assert (Hb1 : beside d0 mid st1 st1').
  { split.
    - simpl. by rewrite Nat.add_0_r.
    - exists (<[cmd_of p:=1%nat]> ∅), [∅]. split; [reflexivity|]. simpl.
      rewrite fmap_insert, !fmap_empty. simpl. rewrite Nat.add_0_r.
      by rewrite <- insert_union_l, (left_id_L ∅ (∪)). }
  destruct (run_beside _ _ _ _ _ _ Hb1 Hrun2') as (st2b & Hrun2b & _ & d' & tl' & Hh' & Hh).
  assert (st2b = st2) as ->.
  { rewrite run_app, Hrun0 in Hrun2. simpl in Hrun2. rewrite Hstep in Hrun2.
    rewrite Hrun2b in Hrun2. by injection Hrun2. }
  exists (tree_at (d0 :: mid) root), (tree_at (heap st2') root).
  unfold build_tree. rewrite Hrun0, Hh0, Hrun2.
  simpl run. rewrite (step_init p Hs). fold st1'. rewrite Hrun2'.
  split; [reflexivity|]. split; [reflexivity|]. f_equal.
  rewrite (tree_at_unfold (heap st2)) by done.
  rewrite (tree_at_unfold (heap st2')), (tree_at_unfold (d0 :: mid)) by done.
  rewrite Hh', Hh. simpl. f_equal.
  rewrite map_fmap_union, <- map_fmap_compose. f_equal.
  - apply map_fmap_ext. intros k b Hb. simpl.
    assert (Hlt : (0 < b)%nat).
    { rewrite Hh' in Hord2'. apply (Hord2' O d' k b); done. }
    destruct b as [|b']; [lia|]. simpl. unfold tree_at.
    rewrite <- Hh, <- Hh'.
    rewrite (reify_stable (heap st2') Hord2' (length (heap st2')) (length (heap st2)) (S b')).
    + rewrite Hh, Hh'. rewrite Hh' in Hord2'. apply reify_beside_new. exact Hord2'.
    + lia.
    + rewrite Hh, Hh'. simpl. rewrite length_app, length_map. lia.
  - apply map_fmap_ext. intros k b Hb.
    pose proof (Hord0 O d0 k b eq_refl Hb) as [H1 H2]. simpl in H2.
    destruct b as [|b']; [lia|]. unfold tree_at.
    rewrite (reify_stable (d0 :: mid) Hord0 (length (d0 :: mid))
               (length (heap st2)) (S b')).
    + rewrite Hh. apply reify_beside_old; [exact Hord0|lia].
    + lia.
    + rewrite Hh. simpl. rewrite length_app. lia.
Qed.

Lemma build_tree_block (l : string) (sub : list string) :
  skipped l = false →
  Forall (fun x => skipped x = true ∨ (indent_of l < indent_of x)%Z) sub →
  ∃ t_sub,
    build_tree sub = Some t_sub
    ∧ build_tree (l :: sub) = Some (Dict {[ cmd_of l := t_sub ]}).
Proof.
  intros Hs Hsub.
  set (pfx := [<[cmd_of l:=1%nat]> (∅ : gmap string nat)]).
  set (st2 := {| heap := [<[cmd_of l:=1%nat]> ∅; ∅];
                 stack := [(indent_of l, 1%nat); ((-1)%Z, root)] |}).
  assert (Hbelow : below pfx (indent_of l) [((-1)%Z, root)] st2 init).
  { exists []. split; [reflexivity|]. split; [reflexivity|].
    split; [constructor|]. simpl. by rewrite shift_empty. }
  destruct (run_below _ _ _ _ Hsub _ _ Hbelow)
    as (st1 & st1' & Hrun1 & Hrun1' & body & _ & _ & _ & Hheap).
  assert (Hrun : run init (l :: sub) = Some st1).
  { simpl. by rewrite (step_init l Hs). }
  destruct (run_store _ _ Hrun) as [Hord _].
  destruct (run_store _ _ Hrun1') as [Hord' _].
  assert (Hpos : (0 < length (heap st1'))%nat).
  { destruct (run_stack sub) as (s0 & Hs0 & _ & Hl0).
    rewrite Hrun1' in Hs0. injection Hs0 as <-. lia. }
  exists (tree_at (heap st1') root). unfold build_tree.
  rewrite Hrun1', Hrun. split; [reflexivity|]. f_equal.
  rewrite tree_at_unfold by done. f_equal.
  rewrite Hheap. simpl.
  rewrite fmap_insert, fmap_empty, insert_empty. f_equal.
  pose proof (tree_at_region pfx [] (heap st1') Hord' Hpos) as Hreg.
  rewrite app_nil_r in Hreg. exact Hreg.
Qed.

(** *** Counting nodes *)

Lemma tsize_insert_fresh (m : gmap string tree) (k : string) (t : tree) :
  m !! k = None → tsize (Dict (<[k:=t]> m)) = S (tsize t + tsize (Dict m)).
Proof.
  intros Hk. rewrite !tsize_unfold.
  rewrite map_fold_insert_L; [reflexivity| |exact Hk].
  intros j1 j2 z1 z2 y _ _ _. lia.
Qed.

Lemma tsize_delete (m : gmap string tree) (k : string) (t : tree) :
  m !! k = Some t → tsize (Dict m) = S (tsize t + tsize (Dict (delete k m))).
Proof.
  intros Hk. rewrite <- (insert_delete_id m k t Hk) at 1.
  apply tsize_insert_fresh. apply lookup_delete_eq.
Qed.

Lemma tsize_insert_le (m : gmap string tree) (k : string) (t : tree) :
  (tsize (Dict (<[k:=t]> m)) ≤ S (tsize t) + tsize (Dict m))%nat.
Proof.
  destruct (m !! k) as [t0|] eqn:Hk.
  - rewrite <- insert_delete_eq, tsize_insert_fresh by apply lookup_delete_eq.
    rewrite (tsize_delete m k t0 Hk). lia.
  - rewrite tsize_insert_fresh by done. lia.
Qed.

Lemma tsize_union_le (m1 m2 : gmap string tree) :
  (tsize (Dict (m1 ∪ m2)) ≤ tsize (Dict m1) + tsize (Dict m2))%nat.
Proof.
  induction m1 as [|k t m1 Hk IH] using map_ind.
  - rewrite (left_id_L ∅ (∪)). lia.
  - rewrite <- insert_union_l.
    pose proof (tsize_insert_le (m1 ∪ m2) k t).
    rewrite (tsize_insert_fresh m1 k t Hk). lia.
Qed.

Lemma block_split (ind : Z) (rest : list string) :
  ∃ sub post,
    rest = sub ++ post
    ∧ Forall (fun x => skipped x = true ∨ (ind < indent_of x)%Z) sub
    ∧ match post with
      | [] => True
      | p :: _ => skipped p = false ∧ (indent_of p ≤ ind)%Z
      end.
Proof.
  induction rest as [|x rest (sub & post & -> & Hsub & Hpost)].
  - exists [], []. by repeat split.
  - destruct (skipped x) eqn:Hs.
    { exists (x :: sub), post. repeat split; [|done]. constructor; [by left|done]. }
    destruct (Z.ltb_spec ind (indent_of x)).
    + exists (x :: sub), post. repeat split; [|done]. constructor; [by right|done].
    + exists [], (x :: sub ++ post). repeat split; [constructor|done|done].
Qed.

Lemma tsize_singleton (k : string) (t : tree) : tsize (Dict {[ k := t ]}) = S (tsize t).
Proof.
  rewrite <- insert_empty, tsize_insert_fresh by apply lookup_empty.
  assert (tsize (Dict ∅) = O) by (rewrite tsize_unfold; apply map_fold_empty).
  lia.
Qed.

Lemma build_tree_skipped (s : string) (ls : list string) :
  skipped s = true → build_tree (s :: ls) = build_tree ls.
Proof. intros Hs. unfold build_tree. simpl. by rewrite step_skipped. Qed.

Lemma build_tree_size (n : nat) :
  ∀ ls t, (length ls ≤ n)%nat → build_tree ls = Some t → (tsize t ≤ emitted ls)%nat.
Proof.
  induction n as [|n IH]; intros ls t Hn Hb.
  - destruct ls; [|simpl in Hn; lia]. injection Hb as <-.
    vm_compute. lia.
  - destruct ls as [|x rest].
    { injection Hb as <-. vm_compute. lia. }
    simpl in Hn. simpl emitted. destruct (skipped x) eqn:Hs.
    { rewrite build_tree_skipped in Hb by done. apply IH; [lia|done]. }
    destruct (block_split (indent_of x) rest) as (sub & post & -> & Hsub & Hpost).
    rewrite length_app in Hn. rewrite emitted_app.
    destruct (build_tree_block x sub Hs Hsub) as (t_sub & Hbs & Hbx).
    assert (Hsz : (tsize t_sub ≤ emitted sub)%nat) by (apply IH; [lia|done]).
    destruct post as [|p post].
    + rewrite app_nil_r, Hbx in Hb. injection Hb as <-.
      rewrite tsize_singleton. simpl. lia.
    + destruct Hpost as [Hp Hle]. simpl in Hn.
      destruct (build_tree_split (x :: sub) post p Hp) as (t_pre & t_post & Hpre & Hpost & Hall).
      { intros y [->|Hy]%elem_of_cons; [right; lia|].
        rewrite Forall_forall in Hsub. destruct (Hsub y Hy) as [?|?]; [by left|right; lia]. }
      rewrite Hbx in Hpre. injection Hpre as <-.
      change (x :: sub ++ p :: post) with ((x :: sub) ++ p :: post) in Hb.
      rewrite Hall in Hb. injection Hb as <-.
      assert (Hsp : (tsize t_post ≤ emitted (p :: post))%nat)
        by (apply IH; [simpl; lia|done]).
      pose proof (tsize_union_le (children t_post) {[cmd_of x := t_sub]}) as Hu.
      rewrite tsize_singleton in Hu.
      destruct t_post as [mp]. simpl in *. lia.
Qed.

(** X8. A line that is indented no deeper than any line before it starts
    afresh: the tree of the whole input has the top-level entries of the
    tree of the part from that line on, and besides them those of the part
    before it that the later part does not define again. *)
Theorem top_level_split (pre post : list string) (p : string) :
  skipped p = false →
  (∀ x, x ∈ pre → skipped x = true ∨ (indent_of p ≤ indent_of x)%Z) →
  ∃ t_pre t_post,
    build_tree pre = Some t_pre
    ∧ build_tree (p :: post) = Some t_post
    ∧ build_tree (pre ++ p :: post)
      = Some (Dict (children t_post ∪ children t_pre)).
Proof. apply build_tree_split. Qed.

(** X9. A line and the lines nested below it: the tree has the single
    top-level key of the line, and under it the tree of the nested lines. *)
Theorem block_nests (l : string) (sub : list string) :
  skipped l = false →
  Forall (fun x => skipped x = true ∨ (indent_of l < indent_of x)%Z) sub →
  ∃ t_sub,
    build_tree sub = Some t_sub
    ∧ build_tree (l :: sub) = Some (Dict {[ cmd_of l := t_sub ]}).
Proof. apply build_tree_block. Qed.

(** X10. The tree never has more nodes than the input has lines that are
    not skipped. *)
Theorem node_count_bound (config_lines : list string) (t : tree) :
  build_tree config_lines = Some t → (tsize t ≤ emitted config_lines)%nat.
Proof. intros H. by apply (build_tree_size (length config_lines)). Qed.

(** *** One node per line when the commands differ *)

Lemma commands_app (l1 l2 : list string) :
  commands (l1 ++ l2) = commands l1 ++ commands l2.
Proof.
  induction l1 as [|l l1 IH]; simpl; [reflexivity|].
  destruct (skipped l); simpl; by rewrite IH.
Qed.

Lemma commands_elem (ls : list string) (line : string) :
  line ∈ ls → skipped line = false → cmd_of line ∈ commands ls.
Proof.
  induction ls as [|l ls IH]; [by intros ?%elem_of_nil|].
  intros [->|Hin]%elem_of_cons Hs; simpl.
  - rewrite Hs. left.
  - destruct (skipped l); [by apply IH|right; by apply IH].
Qed.

Lemma build_tree_keys (ls : list string) (t : tree) (q : list string) (k : string) :
  build_tree ls = Some t → is_Some (subtree t (q ++ [k])) → k ∈ commands ls.
Proof.
  intros Hb Hs. unfold build_tree in Hb.
  destruct (run init ls) as [st|] eqn:Hrun; [|done]. injection Hb as <-.
  destruct (run_store _ _ Hrun) as [Hord _].
  assert (HP : store_keys (fun k => k ∈ commands ls) (heap st)).
  { apply (store_keys_run _ ls) with (st := init); [| |exact Hrun].
    - intros line Hin Hsk. by apply commands_elem.
    - intros a d k0 b Ha Hd. destruct a; simpl in Ha; [|done].
      injection Ha as <-. by rewrite lookup_empty in Hd. }
  exact (tree_at_keys _ _ Hord HP q root k Hs).
Qed.

Lemma build_tree_total (ls : list string) : ∃ t, build_tree ls = Some t.
Proof.
  destruct (run_stack ls) as (st & Hrun & _). unfold build_tree.
  rewrite Hrun. by eexists.
Qed.

(** A block followed by the rest of its level. *)
Lemma build_tree_cons_block (l : string) (sub post : list string) :
  skipped l = false →
  Forall (fun x => skipped x = true ∨ (indent_of l < indent_of x)%Z) sub →
  match post with
  | [] => True
  | p :: _ => skipped p = false ∧ (indent_of p ≤ indent_of l)%Z
  end →
  ∃ t_sub t_post,
    build_tree sub = Some t_sub ∧ build_tree post = Some t_post
    ∧ build_tree (l :: sub ++ post)
      = Some (Dict (children t_post ∪ {[ cmd_of l := t_sub ]})).
Proof.
  intros Hs Hsub Hpost.
  destruct (build_tree_block l sub Hs Hsub) as (t_sub & Hbs & Hbx).
  destruct post as [|p post].
  - exists t_sub, empty_tree. split; [done|]. split; [reflexivity|].
    rewrite app_nil_r, Hbx. simpl. by rewrite (left_id_L ∅ (∪)).
  - destruct Hpost as [Hp Hle].
    destruct (build_tree_split (l :: sub) post p Hp)
      as (t_pre & t_post & Hpre & Hbp & Hall).
    { intros y [->|Hy]%elem_of_cons; [right; lia|].
      rewrite Forall_forall in Hsub. destruct (Hsub y Hy) as [?|?]; [by left|right; lia]. }
    rewrite Hbx in Hpre. injection Hpre as <-.
    exists t_sub, t_post. by repeat split.
Qed.

Lemma build_tree_exact_size (n : nat) :
  ∀ ls t, (length ls ≤ n)%nat → NoDup (commands ls) →
    build_tree ls = Some t → tsize t = emitted ls.
Proof.
  induction n as [|n IH]; intros ls t Hn Hnd Hb.
  - destruct ls; [|simpl in Hn; lia]. injection Hb as <-. by vm_compute.
  - destruct ls as [|x rest].
    { injection Hb as <-. by vm_compute. }
    simpl in Hn, Hnd. simpl emitted. destruct (skipped x) eqn:Hs.
    { rewrite build_tree_skipped in Hb by done. apply IH; [lia|done|done]. }
    destruct (block_split (indent_of x) rest) as (sub & post & -> & Hsub & Hpost).
    rewrite length_app in Hn. rewrite emitted_app.
    rewrite commands_app in Hnd.
    apply NoDup_cons in Hnd as [Hx Hnd].
    apply NoDup_app in Hnd as (Hnd1 & _ & Hnd2).
    destruct (build_tree_cons_block x sub post Hs Hsub Hpost)
      as (t_sub & t_post & Hbs & Hbp & Hall).
    rewrite Hall in Hb. injection Hb as <-.
    assert (Hfree : children t_post !! cmd_of x = None).
    { destruct (children t_post !! cmd_of x) as [c|] eqn:Hc; [|done].
      exfalso. apply Hx, elem_of_app. right.
      apply (build_tree_keys post t_post [] (cmd_of x) Hbp).
      simpl. rewrite Hc. by eexists. }
    rewrite <- insert_union_singleton_r by done.
    rewrite tsize_insert_fresh by done.
    assert (Hd : Dict (children t_post) = t_post) by by destruct t_post.
    rewrite Hd, (IH sub t_sub), (IH post t_post); try done; lia.
Qed.

(** X11. When the lines that are not skipped all have different trimmed
    texts, nothing collapses: the tree has exactly one node for each of
    them. *)
Theorem node_count_exact (config_lines : list string) (t : tree) :
  NoDup (commands config_lines) →
  build_tree config_lines = Some t →
  tsize t = emitted config_lines.
Proof. intros Hnd Hb. by apply (build_tree_exact_size (length config_lines)). Qed.

(** X12. The order of sibling blocks does not matter: two adjacent blocks of
    the top level, started by lines of the same indentation with different
    trimmed texts, can be exchanged without changing the tree. *)
Theorem sibling_blocks_commute (l1 l2 : string) (sub1 sub2 post : list string) :
  skipped l1 = false → skipped l2 = false →
  indent_of l1 = indent_of l2 → cmd_of l1 ≠ cmd_of l2 →
  Forall (fun x => skipped x = true ∨ (indent_of l1 < indent_of x)%Z) sub1 →
  Forall (fun x => skipped x = true ∨ (indent_of l2 < indent_of x)%Z) sub2 →
  match post with
  | [] => True
  | p :: _ => skipped p = false ∧ (indent_of p ≤ indent_of l1)%Z
  end →
  build_tree (l1 :: sub1 ++ l2 :: sub2 ++ post)
  = build_tree (l2 :: sub2 ++ l1 :: sub1 ++ post).
Proof.
  intros Hs1 Hs2 Hind Hcmd Hsub1 Hsub2 Hpost.
  assert (Hpost2 : match post with
                   | [] => True
                   | p :: _ => skipped p = false ∧ (indent_of p ≤ indent_of l2)%Z
                   end).
  { destruct post; [done|]. by rewrite <- Hind. }
  destruct (build_tree_cons_block l2 sub2 post Hs2 Hsub2 Hpost2)
    as (s2 & t_post & Hb2 & Hbp & H2).
  destruct (build_tree_cons_block l1 sub1 post Hs1 Hsub1 Hpost)
    as (s1 & t_post' & Hb1 & Hbp' & H1).
  rewrite Hbp in Hbp'. injection Hbp' as <-.
  destruct (build_tree_cons_block l1 sub1 (l2 :: sub2 ++ post) Hs1 Hsub1)
    as (s1' & t2 & Hb1' & Ht2 & H12).
  { split; [done|]. lia. }
  destruct (build_tree_cons_block l2 sub2 (l1 :: sub1 ++ post) Hs2 Hsub2)
    as (s2' & t1 & Hb2' & Ht1 & H21).
  { split; [done|]. lia. }
  rewrite Hb1 in Hb1'. injection Hb1' as <-.
  rewrite Hb2 in Hb2'. injection Hb2' as <-.
  rewrite H2 in Ht2. injection Ht2 as <-.
  rewrite H1 in Ht1. injection Ht1 as <-.
  rewrite H12, H21. simpl. do 2 f_equal.
  rewrite <- !(assoc_L (∪)). f_equal.
  apply map_union_comm. apply map_disjoint_singleton_l.
  by apply lookup_singleton_ne.
Qed.

(** ** The further properties at concrete inputs *)

Lemma added_subtree_reported_witness :
  children empty_tree !! "interface eth0" = None
  ∧ children new_scenario_tree !! "interface eth0" = Some eth0_new
  ∧ ∃ before after,
      diff_trees canonical_order empty_tree new_scenario_tree 0
      = map (render 0) before
        ++ (added_line 0 "interface eth0"
            :: diff_trees canonical_order empty_tree eth0_new 1)
        ++ map (render 0) after
      ∧ length (Entry [] Added "interface eth0"
                :: diff_entries canonical_order empty_tree eth0_new
                     ([] ++ ["interface eth0"]))
        = S (tsize eth0_new).
Proof.
  assert (Hold : children empty_tree !! "interface eth0" = None) by reflexivity.
  assert (Hnew : children new_scenario_tree !! "interface eth0" = Some eth0_new)
    by (vm_compute; reflexivity).
  split; [exact Hold|]. split; [exact Hnew|].
  destruct (added_subtree_reported canonical_order empty_tree new_scenario_tree
              eth0_new 0 [] "interface eth0" Hold Hnew)
    as (before & after & _ & _ & Hstr & Hlen & _).
  exists before, after. split; [exact Hstr|exact Hlen].
Defined.

Lemma header_has_change_witness :
  Entry [] Header "interface eth0"
    ∈ diff_entries canonical_order old_scenario_tree new_scenario_tree []
  ∧ ∃ e', e' ∈ diff_entries canonical_order old_scenario_tree new_scenario_tree []
          ∧ e_mark e' ≠ Header
          ∧ ["interface eth0"] `prefix_of` e_path e'.
Proof.
  assert (H : Entry [] Header "interface eth0"
              ∈ diff_entries canonical_order old_scenario_tree new_scenario_tree []).
  { vm_compute. left. }
  split; [exact H|].
  exact (proj2 (header_has_change canonical_order old_scenario_tree
                  new_scenario_tree 0 _ H eq_refl)).
Defined.

Lemma trailing_whitespace_ignored_witness :
  map PyStr.rstrip ["a" +:+ newline; "  b   "] = map PyStr.rstrip ["a"; "  b"]
  ∧ build_tree ["a" +:+ newline; "  b   "] = build_tree ["a"; "  b"].
Proof.
  assert (H : map PyStr.rstrip ["a" +:+ newline; "  b   "]
              = map PyStr.rstrip ["a"; "  b"]) by reflexivity.
  split; [exact H|]. exact (proj1 (trailing_whitespace_ignored _ _ H)).
Defined.

Lemma keys_are_commands_witness :
  build_tree old_lines = Some old_scenario_tree
  ∧ is_Some (subtree old_scenario_tree (["interface eth0"] ++ ["ip address 1.2.3.4"]))
  ∧ (∃ line, line ∈ old_lines ∧ skipped line = false
             ∧ "ip address 1.2.3.4" = PyStr.strip line)
  ∧ PyStr.strip "ip address 1.2.3.4" = "ip address 1.2.3.4".
Proof.
  assert (Hb : build_tree old_lines = Some old_scenario_tree)
    by (vm_compute; reflexivity).
  assert (Hs : is_Some (subtree old_scenario_tree
                          (["interface eth0"] ++ ["ip address 1.2.3.4"])))
    by (vm_compute; by eexists).
  split; [exact Hb|]. split; [exact Hs|].
  destruct (keys_are_commands old_lines old_scenario_tree ["interface eth0"]
              "ip address 1.2.3.4" Hb Hs) as (H1 & _ & _ & H4).
  by split.
Defined.

Lemma indentation_order_only_witness :
  build_tree ["a"; "  b"; "    c"; "!"; "  d"] = build_tree ["a"; " b"; "  c"; "!"; " d"].
Proof.
  apply (indentation_order_only (fun x => (2 * x)%Z)).
  - intros x y. lia.
  - repeat (constructor; [by vm_compute|]). constructor.
Defined.

Lemma top_level_split_witness :
  ∃ t_pre t_post,
    build_tree ["a"; " b"] = Some t_pre
    ∧ build_tree ("a" :: [" c"]) = Some t_post
    ∧ build_tree (["a"; " b"] ++ "a" :: [" c"])
      = Some (Dict (children t_post ∪ children t_pre)).
Proof.
  apply (top_level_split ["a"; " b"] [" c"] "a"); [reflexivity|].
  intros x Hx. right.
  apply elem_of_cons in Hx as [->|Hx]; [by vm_compute|].
  apply list_elem_of_singleton in Hx as ->. by vm_compute.
Defined.

Lemma block_nests_witness :
  ∃ t_sub,
    build_tree ["  b"; "    c"] = Some t_sub
    ∧ build_tree ("a" :: ["  b"; "    c"]) = Some (Dict {[ cmd_of "a" := t_sub ]}).
Proof.
  apply (block_nests "a" ["  b"; "    c"]); [reflexivity|].
  repeat (constructor; [right; by vm_compute|]). constructor.
Defined.

Lemma node_count_bound_witness :
  build_tree ["a"; "  b"; "a"] = Some (Dict {[ "a" := empty_tree ]})
  ∧ (tsize (Dict {[ "a" := empty_tree ]}) ≤ emitted ["a"; "  b"; "a"])%nat.
Proof.
  assert (H : build_tree ["a"; "  b"; "a"] = Some (Dict {[ "a" := empty_tree ]}))
    by (vm_compute; reflexivity).
  split; [exact H|]. exact (node_count_bound _ _ H).
Defined.

Lemma node_count_exact_witness :
  NoDup (commands old_lines)
  ∧ build_tree old_lines = Some old_scenario_tree
  ∧ tsize old_scenario_tree = emitted old_lines.
Proof.
  assert (Hnd : NoDup (commands old_lines)).
  { vm_compute. apply NoDup_cons. split; [|apply NoDup_singleton].
    intros H%list_elem_of_singleton. discriminate H. }
  assert (Hb : build_tree old_lines = Some old_scenario_tree)
    by (vm_compute; reflexivity).
  split; [exact Hnd|]. split; [exact Hb|]. exact (node_count_exact _ _ Hnd Hb).
Defined.

Lemma sibling_blocks_commute_witness :
  build_tree ("a" :: [" x"] ++ "b" :: [" y"] ++ ["c"])
  = build_tree ("b" :: [" y"] ++ "a" :: [" x"] ++ ["c"]).
Proof.
  apply (sibling_blocks_commute "a" "b" [" x"] [" y"] ["c"]);
    try reflexivity.
  - discriminate.
  - constructor; [right; by vm_compute|constructor].
  - constructor; [right; by vm_compute|constructor].
  - split; [reflexivity|]. by vm_compute.
Defined.

(** ** Input nested deeper than the recursion limit *)

Lemma lstrip_indented (n : nat) : PyStr.lstrip (indented n "a") = "a".
Proof. induction n as [|n IH]; [reflexivity|]. simpl. exact IH. Qed.

Lemma rstrip_indented (n : nat) : PyStr.rstrip (indented n "a") = indented n "a".
Proof.
  induction n as [|n IH]; [reflexivity|].
  simpl. rewrite IH. destruct n; reflexivity.
Qed.

Lemma length_indented (n : nat) : String.length (indented n "a") = S n.
Proof. induction n as [|n IH]; [reflexivity|]. simpl. by rewrite IH. Qed.

Lemma skipped_indented (n : nat) : skipped (indented n "a") = false.
Proof.
  unfold skipped. cbv zeta. unfold PyStr.strip.
  rewrite rstrip_indented, lstrip_indented. reflexivity.
Qed.

Lemma cmd_of_indented (n : nat) : cmd_of (indented n "a") = "a".
Proof.
  unfold cmd_of, PyStr.strip. rewrite rstrip_indented, lstrip_indented. reflexivity.
Qed.

Lemma indent_of_indented (n : nat) : indent_of (indented n "a") = Z.of_nat n.
Proof.
  unfold indent_of, PyStr.len. rewrite lstrip_indented, length_indented.
  simpl String.length. lia.
Qed.

Lemma staircase_deeper (n : nat) :
  ∀ i j, (i < j)%nat →
    Forall (fun x => skipped x = true ∨ (indent_of (indented i "a") < indent_of x)%Z)
           (staircase j n).
Proof.
  induction n as [|n IH]; intros i j Hij; simpl; constructor.
  - right. rewrite !indent_of_indented. lia.
  - apply IH. lia.
Qed.

Lemma height_singleton (k : string) (t : tree) :
  height (Dict {[ k := t ]}) = S (height t).
Proof. rewrite height_unfold, map_fold_singleton. lia. Qed.

Lemma height_chain (n : nat) : height (chain n) = n.
Proof.
  induction n as [|n IH]; [apply height_empty|].
  simpl chain. by rewrite height_singleton, IH.
Qed.

Lemma build_tree_staircase (n : nat) :
  ∀ i, build_tree (staircase i n) = Some (chain n).
Proof.
  induction n as [|n IH]; intros i; [vm_compute; reflexivity|].
  simpl staircase.
  destruct (build_tree_block (indented i "a") (staircase (S i) n))
    as (t_sub & Hsub & Hall).
  - apply skipped_indented.
  - apply staircase_deeper. lia.
  - rewrite IH in Hsub. injection Hsub as <-.
    rewrite Hall, cmd_of_indented. reflexivity.
Qed.

(** C8 as stated fails: [build_tree] turns a thousand lines, each indented
    one space deeper than the line before it, into a tree a thousand levels
    deep, and on that tree [diff_trees] raises [RecursionError] under the
    interpreter's default limit of a thousand frames, even against the tree
    itself.  No limit helps: an input of as many lines as there are frames
    does the same. *)
Lemma recursion_limit_counterexample :
  build_tree (staircase 0 1000) = Some (chain 1000)
  ∧ height (chain 1000) = 1000%nat
  ∧ (∀ o frames indent, (frames ≤ 1000)%nat →
       diff_trees_call o frames (chain 1000) (chain 1000) indent = None
       ∧ diff_trees_call o frames (chain 1000) empty_tree indent = None
       ∧ diff_trees_call o frames empty_tree (chain 1000) indent = None)
  ∧ (∀ frames, ∃ config_lines t,
       length config_lines = frames
       ∧ build_tree config_lines = Some t
       ∧ ∀ o indent, diff_trees_call o frames t t indent = None)
  ∧ ¬ (∀ o old_tree new_tree indent,
         is_Some (diff_trees_call o 1000 old_tree new_tree indent)).
Proof.
  assert (Hraise : ∀ o frames indent A B,
            (frames ≤ Nat.max (height A) (height B))%nat →
            diff_trees_call o frames A B indent = None).
  { intros o frames indent A B H. rewrite diff_trees_call_spec.
    apply decide_False. lia. }
  split; [apply build_tree_staircase|]. split; [apply height_chain|].
  split; [|split].
  - intros o frames indent Hf.
    repeat split; apply Hraise; rewrite ?height_chain, ?height_empty; lia.
  - intros frames. exists (staircase 0 frames), (chain frames).
    split; [|split; [apply build_tree_staircase|]].
    + generalize 0%nat. induction frames as [|n IH]; intros i; [reflexivity|].
      simpl. by rewrite IH.
    + intros o indent. apply Hraise. rewrite height_chain. lia.
  - intros H. destruct (H canonical_order (chain 1000) (chain 1000) 0%Z) as [r Hr].
    rewrite Hraise in Hr; [discriminate|].
    rewrite height_chain. lia.
Qed.
